(** * ComfyUI-Cleaner: the log-retention daemon of [cleanup_daemon.py]

    A shallow embedding of [LogCleanupDaemon]: the file registry, the three
    eviction policies, the directory scanner, state persistence, the
    configuration loader and the worker / heartbeat threads, followed by
    the properties of the specification that can be settled on them.

    Conventions of the embedding.
    - Python [int] is [Z].  Timestamps ([st_mtime], [time.time()]) are
      floats in the source; here they are whole seconds in [Z]: the code
      only orders them and subtracts a retention from the clock.
    - Floats that come from configuration text or from the CPU sampler are
      exact rationals [Q], without the rounding and the overflow of
      doubles.  The two agree on whole numbers up to [2^53]: a double
      holds each of them, and multiplies two of them exactly when the
      product is in that range too.  What is stated about the value of
      a float is stated of such numbers.
    - Python [str] is [string]; text is treated as ASCII.
    - A path is the text [pathlib] prints for it on a POSIX system.  The
      file table lists what the process can reach, each file under one
      text: two spellings of one file (through [..], a symbolic link, or
      an absolute and a relative name) are not modelled.
    - [Dict[str, List[FileInfo]]] is a [gmap string (list FileInfo)].
    - The operating system (files, directories, clock, CPU sampler, the
      state file) is an explicit [World]; everything the daemon object
      owns is a [Daemon]; methods are computations in the state monad
      [M] over the pair.  An operation that raises in Python and is
      caught by the method is an explicit failure result here. *)

From Stdlib Require Import ZArith QArith Qpower Lia.
From stdpp Require Import gmap strings list fin_maps sorting.

#[local] Set Warnings "-clear-no-such-hyp".

Local Open Scope Z_scope.
Import Stdlib.Strings.Ascii.

(* ===================================================================== *)
(** ** Data model *)
(* ===================================================================== *)

(** [@dataclass FileInfo] *)
Record FileInfo := mkFileInfo {
  path : string;
  size : Z;
  mtime : Z;
  relative_path : string
}.

(** Dataclass equality ([==], used by [in] / [not in]) is field-wise. *)
#[global] Instance FileInfo_eq_dec : EqDecision FileInfo.
Proof. solve_decision. Defined.

(** A Python [float] read from text: a finite value, an infinity or
    not-a-number ([float] accepts the spellings "inf" and "nan"). *)
Inductive PyFloat :=
| Finite (q : Q)
| Infinite (negative : bool)
| NaN.

(** [@dataclass CleanupConfig] *)
Record CleanupConfig := mkCleanupConfig {
  directories : list string;
  retention_seconds : Z;
  max_files_per_dir : Z;
  max_disk_size_bytes : Z;
  scan_interval : Z;
  heartbeat_interval : Z;
  cpu_threshold : PyFloat;
  state_file : string;
  heartbeat_timeout : Z
}.

(** The JSON documents [json.dump] writes and [json.load] reads.  The
    text form is not modelled: the library pair is taken to carry a
    document through a file unchanged.  [JFloat] carries a timestamp. *)
#[local] Set Warnings "-register-all".
Inductive Json :=
| JNull
| JBool (b : bool)
| JInt (n : Z)
| JFloat (t : Z)
| JStr (s : string)
| JArr (items : list Json)
| JObj (members : list (string * Json)).

(** Log records: level and message, with the values the f-string
    interpolates. *)
Inductive Level := DEBUG | INFO | WARNING | ERROR.

Inductive LogMsg :=
| MsgRetentionEmpty
| MsgRetentionParseFailed
| MsgStateLoaded
| MsgLoadFailed
| MsgDirMissing (d : string)
| MsgStatFailed (p : string)
| MsgScanFailed (d : string)
| MsgCpuSampleFailed
| MsgOverRetention (d : string) (n : nat)
| MsgRemovedByTime (p : string)
| MsgRemovedByCount (p : string)
| MsgRemovedBySize (p : string)
| MsgDeleteFailed (p : string)
| MsgCountOver (d : string) (current_count max_count need_remove : Z)
| MsgSizeOver (d : string) (total_size max_size : Z) (n : nat)
| MsgCpuBusySkip
| MsgScanStart
| MsgDirDone (d : string) (time_removed count_removed size_removed : nat)
| MsgSaveFailed
| MsgWorkerNotRunning
| MsgHeartbeatTimeout
| MsgHeartbeatOk
| MsgThreadStarted
| MsgStoppingThread
| MsgThreadForced.

(* ===================================================================== *)
(** ** The world outside the process *)
(* ===================================================================== *)

Record Stat := mkStat { st_size : Z; st_mtime : Z }.

Record World := mkWorld {
  fs_files : gmap string Stat;    (* regular files the process can reach,
                                     by the text pathlib prints for them *)
  fs_dirs : gset string;          (* directories that exist, likewise *)
  fs_locked : gset string;        (* files whose unlink raises *)
  fs_unstatable : gset string;    (* files that pass [is_file()] and whose
                                     [stat()] right after it raises *)
  fs_unwalkable : gset string;    (* directories whose [rglob] raises, and
                                     paths whose [is_file()] raises *)
  state_store : option (option Json);
                                  (* the state file: [None] no file,
                                     [Some None] a file that does not parse,
                                     [Some (Some j)] a file that parses to
                                     [j] *)
  store_ok : bool;                (* makedirs, open and write all succeed *)
  open_ok : bool;                 (* makedirs and open succeed (what a
                                     failing save gets as far as) *)
  clock : Z;                      (* time.time() *)
  cpu_percent : option Q          (* psutil.cpu_percent; None: it raises *)
}.

Definition set_fs_files (fl : gmap string Stat) (w : World) : World :=
  mkWorld fl (fs_dirs w) (fs_locked w) (fs_unstatable w) (fs_unwalkable w)
          (state_store w) (store_ok w) (open_ok w) (clock w) (cpu_percent w).

Definition set_state_store (j : option (option Json)) (w : World) : World :=
  mkWorld (fs_files w) (fs_dirs w) (fs_locked w) (fs_unstatable w)
          (fs_unwalkable w) j (store_ok w) (open_ok w) (clock w)
          (cpu_percent w).

(** [Path(p).unlink()]: succeeds on a present, unlocked regular file and
    removes it; raises otherwise ([None]). *)
Definition unlink (p : string) (w : World) : option World :=
  if bool_decide (p ∈ dom (fs_files w) ∧ p ∉ fs_locked w)
  then Some (set_fs_files (delete p (fs_files w)) w)
  else None.

(* ===================================================================== *)
(** ** The daemon object and the state monad *)
(* ===================================================================== *)

Record Daemon := mkDaemon {
  config : CleanupConfig;
  file_registry : gmap string (list FileInfo);
  running : bool;
  last_heartbeat : Z;
  logger : list (Level * LogMsg)    (* oldest record first *)
}.

Record St := mkSt { os : World; self : Daemon }.

Definition M (A : Type) : Type := St -> A * St.

Definition ret {A} (a : A) : M A := fun s => (a, s).

Definition bind {A B} (m : M A) (k : A -> M B) : M B :=
  fun s => let '(a, s') := m s in k a s'.

Notation "x <- c1 ;; c2" := (bind c1 (fun x => c2))
  (at level 100, c1 at next level, right associativity).
Notation "c1 ;; c2" := (bind c1 (fun _ => c2))
  (at level 100, right associativity).

Definition get_os : M World := fun s => (os s, s).
Definition get_self : M Daemon := fun s => (self s, s).
Definition put_os (w : World) : M unit := fun s => (tt, mkSt w (self s)).

Definition set_registry (r : gmap string (list FileInfo)) : M unit :=
  fun s => let d := self s in
    (tt, mkSt (os s) (mkDaemon (config d) r (running d) (last_heartbeat d)
                               (logger d))).

Definition set_running (b : bool) : M unit :=
  fun s => let d := self s in
    (tt, mkSt (os s) (mkDaemon (config d) (file_registry d) b
                               (last_heartbeat d) (logger d))).

Definition set_last_heartbeat (t : Z) : M unit :=
  fun s => let d := self s in
    (tt, mkSt (os s) (mkDaemon (config d) (file_registry d) (running d) t
                               (logger d))).

Definition set_logger (lg : list (Level * LogMsg)) (d : Daemon) : Daemon :=
  mkDaemon (config d) (file_registry d) (running d) (last_heartbeat d) lg.

Definition log (lv : Level) (m : LogMsg) : M unit :=
  fun s => (tt, mkSt (os s) (set_logger (logger (self s) ++ [(lv, m)]) (self s))).

(** How many "delete failed" warnings a log holds. *)
Fixpoint delete_failures (lg : list (Level * LogMsg)) : nat :=
  match lg with
  | [] => 0
  | (WARNING, MsgDeleteFailed _) :: r => S (delete_failures r)
  | _ :: r => delete_failures r
  end.

(** [self.file_registry[directory] = files] *)
Definition registry_store (directory : string) (files : list FileInfo)
  : M unit :=
  d <- get_self ;; set_registry (<[directory := files]> (file_registry d)).

(** [self.file_registry.get(directory, [])] *)
Definition registry_get (directory : string) : M (list FileInfo) :=
  d <- get_self ;; ret (default [] (file_registry d !! directory)).

(* ===================================================================== *)
(** ** Eviction policies *)
(* ===================================================================== *)

(** [files.sort(key=lambda x: x.mtime)].  Python's sort is stable, so its
    result is the one stable ordering by key; insertion from the right
    computes the same list. *)
Fixpoint insert_by_mtime (f : FileInfo) (l : list FileInfo)
  : list FileInfo :=
  match l with
  | [] => [f]
  | g :: r => if mtime f <=? mtime g then f :: g :: r
              else g :: insert_by_mtime f r
  end.

Fixpoint sort_by_mtime (l : list FileInfo) : list FileInfo :=
  match l with
  | [] => []
  | f :: r => insert_by_mtime f (sort_by_mtime r)
  end.

(** [sum(f.size for f in files)] *)
Definition total_size (files : list FileInfo) : Z :=
  foldl (fun acc f => acc + size f) 0 files.

(** The deletion loop the three policies share word for word, up to the
    message logged on success:
<<
    for f in to_remove:
        try:
            Path(f.path).unlink(); files_removed += 1; logger.info(...)
        except Exception as e:
            logger.warning(...)
>>
    It returns [files_removed]. *)
Fixpoint delete_files (removed_msg : string -> LogMsg)
    (to_remove : list FileInfo) : M nat :=
  match to_remove with
  | [] => ret 0%nat
  | f :: rest =>
      w <- get_os ;;
      match unlink (path f) w with
      | Some w' =>
          put_os w' ;;
          log INFO (removed_msg (path f)) ;;
          n <- delete_files removed_msg rest ;;
          ret (S n)
      | None =>
          log WARNING (MsgDeleteFailed (path f)) ;;
          delete_files removed_msg rest
      end
  end.

(** [_cleanup_by_time] *)
Definition cleanup_by_time (directory : string) : M nat :=
  w <- get_os ;;
  d <- get_self ;;
  let cutoff_time := clock w - retention_seconds (config d) in
  files <- registry_get directory ;;
  let to_remove := filter (fun f => mtime f < cutoff_time) files in
  let to_keep := filter (fun f => f ∉ to_remove) files in
  files_removed <-
    (match to_remove with
     | [] => ret 0%nat
     | _ :: _ =>
         log INFO (MsgOverRetention directory (length to_remove)) ;;
         delete_files MsgRemovedByTime to_remove
     end) ;;
  registry_store directory to_keep ;;
  ret files_removed.

(** [_cleanup_by_count].  The in-place sort also reorders the registry's
    own list object, which the final assignment then replaces. *)
Definition cleanup_by_count (directory : string) : M nat :=
  d <- get_self ;;
  files <- registry_get directory ;;
  let current_count := Z.of_nat (length files) in
  let max_count := max_files_per_dir (config d) in
  if current_count <=? max_count then ret 0%nat
  else
    let need_remove := current_count - max_count in
    let files := sort_by_mtime files in
    let to_remove := take (Z.to_nat need_remove) files in
    let to_keep := drop (Z.to_nat need_remove) files in
    log INFO (MsgCountOver directory current_count max_count need_remove) ;;
    files_removed <- delete_files MsgRemovedByCount to_remove ;;
    registry_store directory to_keep ;;
    ret files_removed.

(** The victim-selection loop of [_cleanup_by_size]:
<<
    for f in files:
        if current_size <= max_size: break
        to_remove.append(f); current_size -= f.size
>> *)
Fixpoint size_victims (files : list FileInfo) (current_size max_size : Z)
  : list FileInfo :=
  match files with
  | [] => []
  | f :: rest =>
      if current_size <=? max_size then []
      else f :: size_victims rest (current_size - size f) max_size
  end.

(** [_cleanup_by_size] *)
Definition cleanup_by_size (directory : string) : M nat :=
  d <- get_self ;;
  files <- registry_get directory ;;
  let total := total_size files in
  let max_size := max_disk_size_bytes (config d) in
  if total <=? max_size then ret 0%nat
  else
    let files := sort_by_mtime files in
    let to_remove := size_victims files total max_size in
    log INFO (MsgSizeOver directory total max_size (length to_remove)) ;;
    files_removed <- delete_files MsgRemovedBySize to_remove ;;
    registry_store directory (drop (length to_remove) files) ;;
    ret files_removed.

(* ===================================================================== *)
(** ** Directory scanner *)
(* ===================================================================== *)

Fixpoint strip_prefix (pre s : string) : option string :=
  match pre, s with
  | EmptyString, _ => Some s
  | String a pre', String b s' =>
      if bool_decide (a = b) then strip_prefix pre' s' else None
  | String _ _, EmptyString => None
  end.

(** [str(Path(text))], the text of a POSIX path object: the root is
    kept (one separator, or two when the text starts with exactly two),
    repeated and trailing separators and the components [.] are dropped,
    [..] is kept, and a text without root and components is [.]. *)
Definition keep_part (part : list ascii) : list (list ascii) :=
  if bool_decide (part = [] ∨ part = ["."%char]) then [] else [part].

Fixpoint path_parts (cs cur : list ascii) : list (list ascii) :=
  match cs with
  | [] => keep_part (rev cur)
  | c :: rest =>
      if bool_decide (c = "/"%char)
      then keep_part (rev cur) ++ path_parts rest []
      else path_parts rest (c :: cur)
  end.

Definition path_root (cs : list ascii) : list ascii :=
  match cs with
  | a :: b :: c :: _ =>
      if bool_decide (a = "/"%char ∧ b = "/"%char ∧ c ≠ "/"%char)
      then ["/"%char; "/"%char]
      else if bool_decide (a = "/"%char) then ["/"%char] else []
  | [a; b] =>
      if bool_decide (a = "/"%char ∧ b = "/"%char) then ["/"%char; "/"%char]
      else if bool_decide (a = "/"%char) then ["/"%char] else []
  | [a] => if bool_decide (a = "/"%char) then ["/"%char] else []
  | [] => []
  end.

Fixpoint join_parts (parts : list (list ascii)) : list ascii :=
  match parts with
  | [] => []
  | [part] => part
  | part :: rest => part ++ "/"%char :: join_parts rest
  end.

Definition Path (text : string) : string :=
  let cs := String.list_ascii_of_string text in
  match path_root cs, path_parts cs [] with
  | [], [] => "."
  | root, parts => String.string_of_list_ascii (root ++ join_parts parts)
  end.

(** What [str(dir_path / rel)] puts in front of [rel]: nothing for the
    current directory, the root itself for a root, and the directory
    followed by a separator otherwise. *)
Definition child_prefix (dir_path : string) : string :=
  if bool_decide (dir_path = ".") then ""
  else if bool_decide (dir_path = "/" ∨ dir_path = "//") then dir_path
  else String.append dir_path "/".

(** The relative paths a walk yields: names joined by separators, so a
    text in the form [Path] prints, without root, and with no component
    [.] or [..]. *)
Definition is_child_text (rel : string) : bool :=
  let cs := String.list_ascii_of_string rel in
  bool_decide (rel ≠ EmptyString ∧ rel ≠ "." ∧ Path rel = rel ∧
               path_root cs = [] ∧
               ["."%char; "."%char] ∉ path_parts cs []).

(** [str(file_path.relative_to(dir_path))] for a path the walk of
    [dir_path] yields, [None] for a path that does not lie under
    [dir_path]. *)
Definition relative_to (dir_path p : string) : option string :=
  match strip_prefix (child_prefix dir_path) p with
  | Some rel => if is_child_text rel then Some rel else None
  | None => None
  end.

(** The paths a walk of [dir_path] touches: the directory itself, which
    [rglob] lists, and everything under it, which [is_file()] tests. *)
Definition walked_dirs (w : World) (dir_path : string) : gset string :=
  {[dir_path]} ∪
  filter (fun p => is_Some (relative_to dir_path p)) (fs_dirs w).

Definition walked (w : World) (dir_path : string) : gset string :=
  walked_dirs w dir_path ∪
  filter (fun p => is_Some (relative_to dir_path p)) (dom (fs_files w)).

(** The files of the walk: [dir_path.rglob('*')] filtered by
    [is_file()], each file stat'ed and recorded.  An [is_file()] that
    raises is outside the inner [try] and ends the walk ([None]); a
    [stat()] that raises after it is inside, and only that file is
    skipped.  The walk meets every path once, so collecting into the
    dict [current_files] (keyed by path) and taking
    [list(current_files.values())] is collecting into a list.  The order
    of the walk is the order of [entries]. *)
Fixpoint scan_entries (dir_path : string) (entries : list (string * Stat))
  : M (option (list FileInfo)) :=
  match entries with
  | [] => ret (Some [])
  | (p, stat) :: rest =>
      match relative_to dir_path p with
      | None => scan_entries dir_path rest
      | Some rel =>
          w <- get_os ;;
          if bool_decide (p ∈ fs_unwalkable w) then ret None
          else if bool_decide (p ∈ fs_unstatable w) then
            log DEBUG (MsgStatFailed p) ;;
            scan_entries dir_path rest
          else
            found <- scan_entries dir_path rest ;;
            ret (cons (mkFileInfo p (st_size stat) (st_mtime stat) rel)
                   <$> found)
      end
  end.

(** [_scan_directory].  [exists()], taken not to raise, holds of a
    directory and of a regular file; [rglob] on a path that is not a
    directory yields nothing, so the entry of a regular file becomes the
    empty list.  The walk tests the directories under [dir_path] before
    the files. *)
Definition scan_directory (directory : string) : M unit :=
  let dir_path := Path directory in
  w <- get_os ;;
  if bool_decide ((dir_path ∉ fs_dirs w) ∧ dir_path ∉ dom (fs_files w)) then
    log WARNING (MsgDirMissing directory)
  else if bool_decide (dir_path ∉ fs_dirs w) then
    registry_store directory []
  else if bool_decide (walked_dirs w dir_path ## fs_unwalkable w) then
    found <- scan_entries dir_path (map_to_list (fs_files w)) ;;
    match found with
    | Some current_files => registry_store directory current_files
    | None => log ERROR (MsgScanFailed directory)
    end
  else log ERROR (MsgScanFailed directory).

(* ===================================================================== *)
(** ** CPU gate and the cleanup cycle *)
(* ===================================================================== *)

(** [u > t] for a finite sample [u] and a threshold [t]. *)
Definition float_gt (u : Q) (t : PyFloat) : bool :=
  match t with
  | Finite q => negb (Qle_bool u q)
  | Infinite negative => negative
  | NaN => false
  end.

(** [_is_cpu_busy] *)
Definition is_cpu_busy : M bool :=
  w <- get_os ;;
  d <- get_self ;;
  match cpu_percent w with
  | Some u => ret (float_gt u (cpu_threshold (config d)))
  | None => log WARNING MsgCpuSampleFailed ;; ret false
  end.

(* ===================================================================== *)
(** ** State persistence *)
(* ===================================================================== *)

Definition encode_file (f : FileInfo) : Json :=
  JObj [("path", JStr (path f)); ("size", JInt (size f));
        ("mtime", JFloat (mtime f));
        ("relative_path", JStr (relative_path f))].

(** The dict comprehension of [_save_state].  A Python dict lists its
    items in insertion order; here the order is that of [map_to_list]. *)
Definition encode_registry (r : gmap string (list FileInfo)) : Json :=
  JObj (map (fun '(dir_path, files) => (dir_path, JArr (map encode_file files)))
            (map_to_list r)).

(** [_save_state]: any failure of [makedirs], [open] or [json.dump] is
    logged and swallowed.  [open(..., 'w')] empties the file before
    [json.dump] writes, so a write that fails leaves a file that does not
    parse; a failure before [open] leaves the file as it was. *)
Definition save_state : M unit :=
  w <- get_os ;;
  d <- get_self ;;
  if store_ok w then
    put_os (set_state_store
              (Some (Some (encode_registry (file_registry d)))) w)
  else if open_ok w then
    put_os (set_state_store (Some None) w) ;;
    log ERROR MsgSaveFailed
  else log ERROR MsgSaveFailed.

(** The dict [json.load] builds from the members of an object: a key
    that occurs again replaces the value and keeps its first place. *)
Fixpoint dict_set (k : string) (v : Json) (l : list (string * Json))
  : list (string * Json) :=
  match l with
  | [] => [(k, v)]
  | (k', v') :: r =>
      if bool_decide (k = k') then (k, v) :: r else (k', v') :: dict_set k v r
  end.

Definition py_dict (members : list (string * Json)) : list (string * Json) :=
  foldl (fun acc kv => dict_set (fst kv) (snd kv) acc) [] members.

(** [fd[key]]; [None] is [KeyError]. *)
Fixpoint dict_get (key : string) (l : list (string * Json)) : option Json :=
  match l with
  | [] => None
  | (k, v) :: r => if bool_decide (key = k) then Some v else dict_get key r
  end.

(** [FileInfo(path=fd['path'], ...)].  [None] when [fd] is not a dict or
    lacks a key (the source raises).  The source stores whatever value
    the document holds; the typed record here has no place for a value
    of another type than the dataclass declares, which is a failure too. *)
Definition decode_file (fd : Json) : option FileInfo :=
  match fd with
  | JObj members =>
      let fd := py_dict members in
      match dict_get "path" fd, dict_get "size" fd,
            dict_get "mtime" fd, dict_get "relative_path" fd with
      | Some (JStr p), Some (JInt sz), Some (JFloat t), Some (JStr rel) =>
          Some (mkFileInfo p sz t rel)
      | Some (JStr p), Some (JInt sz), Some (JInt t), Some (JStr rel) =>
          Some (mkFileInfo p sz t rel)
      | _, _, _, _ => None
      end
  | _ => None
  end.

(** [[FileInfo(...) for fd in files_data]]: a list is walked; an empty
    dict or string is walked too and gives no record; anything else
    raises on the first item or on [iter]. *)
Definition decode_files (files_data : Json) : option (list FileInfo) :=
  match files_data with
  | JArr items => mapM decode_file items
  | JObj [] => Some []
  | JStr EmptyString => Some []
  | _ => None
  end.

(** When the list comprehension of [_load_initial_state] raises, whatever
    the types of the values: on an item that is not a dict ([fd['path']]
    on a list, a string, a number or null) or that lacks one of the four
    keys; on every item of a dict or of a string that is not empty (the
    items are keys or characters); and on a value that cannot be
    iterated. *)
Definition item_raises (fd : Json) : bool :=
  match fd with
  | JObj members =>
      let fd := py_dict members in
      negb (bool_decide (is_Some (dict_get "path" fd) ∧
                         is_Some (dict_get "size" fd) ∧
                         is_Some (dict_get "mtime" fd) ∧
                         is_Some (dict_get "relative_path" fd)))
  | _ => true
  end.

Definition files_data_raises (files_data : Json) : bool :=
  match files_data with
  | JArr items => existsb item_raises items
  | JObj members => negb (bool_decide (members = []))
  | JStr s => negb (bool_decide (s = EmptyString))
  | _ => true
  end.

(** The loop over [state_data.items()]: entries before a failing one
    have already been stored when the exception leaves the loop. *)
Fixpoint load_entries (items : list (string * Json)) : M bool :=
  match items with
  | [] => ret true
  | (dir_path, files_data) :: rest =>
      match decode_files files_data with
      | Some files => registry_store dir_path files ;; load_entries rest
      | None => ret false
      end
  end.

(** First half of [_load_initial_state]: restore from the state file.
    [state_store = None] is the file not existing; on a file that does
    not parse [json.load] raises. *)
Definition load_state_file : M unit :=
  w <- get_os ;;
  match state_store w with
  | None => ret tt
  | Some (Some (JObj members)) =>
      ok <- load_entries (py_dict members) ;;
      if ok then log INFO MsgStateLoaded else log WARNING MsgLoadFailed
  | Some _ => log WARNING MsgLoadFailed
  end.



(** The loop body of [_perform_cleanup], directory by directory. *)
Fixpoint cleanup_directories (dirs : list string) : M unit :=
  match dirs with
  | [] => ret tt
  | directory :: rest =>
      scan_directory directory ;;
      time_removed <- cleanup_by_time directory ;;
      count_removed <- cleanup_by_count directory ;;
      size_removed <- cleanup_by_size directory ;;
      log INFO (MsgDirDone directory time_removed count_removed size_removed) ;;
      cleanup_directories rest
  end.

(** [_perform_cleanup] *)
Definition perform_cleanup : M unit :=
  busy <- is_cpu_busy ;;
  if busy then log INFO MsgCpuBusySkip
  else
    log INFO MsgScanStart ;;
    d <- get_self ;;
    cleanup_directories (directories (config d)) ;;
    save_state ;;
    w <- get_os ;;
    set_last_heartbeat (clock w).

(* ===================================================================== *)
(** ** Configuration loader *)
(* ===================================================================== *)

Module PyText.

(** [str.isspace] on ASCII: tab to carriage return, the four
    separators FS..US, and the blank. *)
Definition is_space (c : ascii) : bool :=
  let n := nat_of_ascii c in
  ((9 <=? n) && (n <=? 13) || (28 <=? n) && (n <=? 32))%nat.

(** [str.isdigit] on ASCII. *)
Definition is_digit (c : ascii) : bool :=
  let n := nat_of_ascii c in ((48 <=? n) && (n <=? 57))%nat.

Definition digit_value (c : ascii) : Z := Z.of_nat (nat_of_ascii c) - 48.

Definition lower_char (c : ascii) : ascii :=
  let n := nat_of_ascii c in
  if ((65 <=? n) && (n <=? 90))%nat then ascii_of_nat (n + 32) else c.

Fixpoint lstrip (cs : list ascii) : list ascii :=
  match cs with
  | c :: r => if is_space c then lstrip r else cs
  | [] => []
  end.

(** [str.strip()] *)
Definition strip (cs : list ascii) : list ascii :=
  rev (lstrip (rev (lstrip cs))).

(** [str.lower()] *)
Definition lower (cs : list ascii) : list ascii := map lower_char cs.

(** A run of decimal digits in which single underscores may separate
    digits, as [int] and [float] accept it: its value and its number
    of digits.  [after_digit] tells whether the previous character was
    a digit; the run must start and end with one. *)
Fixpoint digit_run (cs : list ascii) (acc : Z) (n : nat)
    (after_digit : bool) : option (Z * nat) :=
  match cs with
  | [] => if after_digit then Some (acc, n) else None
  | c :: r =>
      if is_digit c then digit_run r (10 * acc + digit_value c) (S n) true
      else if bool_decide (c = "_"%char) then
        if after_digit then digit_run r acc n false else None
      else None
  end.

Definition digits (cs : list ascii) : option (Z * nat) :=
  digit_run cs 0 0%nat false.

(** An optional sign: whether it is a minus, and the rest. *)
Definition take_sign (cs : list ascii) : bool * list ascii :=
  match cs with
  | c :: r =>
      if bool_decide (c = "-"%char) then (true, r)
      else if bool_decide (c = "+"%char) then (false, r)
      else (false, cs)
  | [] => (false, [])
  end.

(** [int(s)] for a decimal string; [None] is [ValueError]. *)
Definition py_int (s : string) : option Z :=
  let '(neg, body) := take_sign (strip (String.list_ascii_of_string s)) in
  match digits body with
  | Some (v, _) => Some (if neg then - v else v)
  | None => None
  end.

(** Split at the first character satisfying [p]: what precedes it and,
    if there is one, what follows it. *)
Fixpoint split_at (p : ascii -> bool) (cs : list ascii)
  : list ascii * option (list ascii) :=
  match cs with
  | [] => ([], None)
  | c :: r =>
      if p c then ([], Some r)
      else let '(a, b) := split_at p r in (c :: a, b)
  end.

(** A digit run that may be empty (the integer or the fraction part of
    a float literal). *)
Definition digits_opt (cs : list ascii) : option (Z * nat) :=
  match cs with
  | [] => Some (0, 0%nat)
  | _ => digits cs
  end.

(** Mantissa [int_part [. frac_part]] with a digit on one side at
    least. *)
Definition mantissa (cs : list ascii) : option Q :=
  let '(ip, fp) := split_at (fun c => bool_decide (c = "."%char)) cs in
  match digits_opt ip, digits_opt (default [] fp) with
  | Some (iv, il), Some (fv, fl) =>
      if ((il + fl)%nat =? 0)%nat then None
      else Some (Qmake (iv * 10 ^ Z.of_nat fl + fv)
                       (Z.to_pos (10 ^ Z.of_nat fl)))
  | _, _ => None
  end.

Definition exponent (cs : list ascii) : option Z :=
  let '(neg, body) := take_sign cs in
  match digits body with
  | Some (v, _) => Some (if neg then - v else v)
  | None => None
  end.

Definition is_e (c : ascii) : bool :=
  bool_decide (c = "e"%char) || bool_decide (c = "E"%char).

(** [float(s)]; [None] is [ValueError]. *)
Definition py_float (s : string) : option PyFloat :=
  let '(neg, body) := take_sign (strip (String.list_ascii_of_string s)) in
  let word := String.string_of_list_ascii (lower body) in
  if bool_decide (word = "inf"%string ∨ word = "infinity"%string)
  then Some (Infinite neg)
  else if bool_decide (word = "nan"%string) then Some NaN
  else
    let '(m, e) := split_at is_e body in
    match mantissa m, match e with
                      | None => Some 0
                      | Some ecs => exponent ecs
                      end with
    | Some q, Some x =>
        let v := (q * Qpower (10 # 1) x)%Q in
        Some (Finite (if neg then Qopp v else v))
    | _, _ => None
    end.

(** [s.split(',')] *)
Fixpoint split_chars (sep : ascii) (cs : list ascii) (cur : list ascii)
  : list string :=
  match cs with
  | [] => [String.string_of_list_ascii (rev cur)]
  | c :: r =>
      if bool_decide (c = sep) then
        String.string_of_list_ascii (rev cur) :: split_chars sep r []
      else split_chars sep r (c :: cur)
  end.

Definition split (sep : ascii) (s : string) : list string :=
  split_chars sep (String.list_ascii_of_string s) [].

End PyText.

Inductive Exc := ValueError | OverflowError.

(** [units = {'s': 1, 'm': 60, 'h': 3600, 'd': 86400}] *)
Definition units (c : ascii) : option Z :=
  if bool_decide (c = "s"%char) then Some 1
  else if bool_decide (c = "m"%char) then Some 60
  else if bool_decide (c = "h"%char) then Some 3600
  else if bool_decide (c = "d"%char) then Some 86400
  else None.

(** The character loop of [_parse_retention_time]: the leading digits
    and dots, and the unit. *)
Fixpoint retention_scan (cs : list ascii) (unit : ascii)
  : list ascii * ascii :=
  match cs with
  | [] => ([], unit)
  | c :: r =>
      if PyText.is_digit c || bool_decide (c = "."%char) then
        let '(num_str, u) := retention_scan r unit in (c :: num_str, u)
      else if bool_decide (is_Some (units c)) then ([], c)
      else ([], unit)
  end.

(** [int(x)] for a float [x]: truncation toward zero; infinities and
    not-a-number raise. *)
Definition int_of_float (x : PyFloat) : Exc + Z :=
  match x with
  | Finite q => inr (Z.quot (Qnum q) (Z.pos (Qden q)))
  | Infinite _ => inl OverflowError
  | NaN => inl ValueError
  end.

Definition float_mul_int (x : PyFloat) (k : Z) : PyFloat :=
  match x with
  | Finite q => Finite (q * inject_Z k)%Q
  | Infinite negative => Infinite negative
  | NaN => NaN
  end.

(** [_parse_retention_time]: the seconds, and the warnings logged. *)
Definition parse_retention_time (time_str : string)
  : Z * list (Level * LogMsg) :=
  let time_str := PyText.lower (PyText.strip (String.list_ascii_of_string time_str)) in
  match time_str with
  | [] => (3 * 86400, [(WARNING, MsgRetentionEmpty)])
  | _ =>
      let '(num_str, unit) := retention_scan time_str "d"%char in
      match num_str with
      | [] => (3 * 86400, [(WARNING, MsgRetentionParseFailed)])
      | _ =>
          match PyText.py_float (String.string_of_list_ascii num_str), units unit with
          | Some x, Some k =>
              match int_of_float (float_mul_int x k) with
              | inr n => (n, [])
              | inl _ => (3 * 86400, [(WARNING, MsgRetentionParseFailed)])
              end
          | _, _ => (3 * 86400, [(WARNING, MsgRetentionParseFailed)])
          end
      end
  end.

Definition DEFAULT_CONFIG : gmap string string :=
  list_to_map
    [("CLEANUP_DIRECTORIES", "/var/log"); ("RETENTION_DAYS", "3");
     ("MAX_FILES_PER_DIR", "10000"); ("MAX_DISK_SIZE_MB", "10240");
     ("SCAN_INTERVAL", "300"); ("HEARTBEAT_INTERVAL", "300");
     ("CPU_THRESHOLD", "80.0");
     ("STATE_FILE", "/tmp/cleanup_daemon_state.json");
     ("HEARTBEAT_TIMEOUT", "600")]%string.

(** [os.getenv(key, DEFAULT_CONFIG[key])] *)
Definition get_env (environ : gmap string string) (key : string) : string :=
  default (default ""%string (DEFAULT_CONFIG !! key)) (environ !! key).

Definition int_env (environ : gmap string string) (key : string) : Exc + Z :=
  match PyText.py_int (get_env environ key) with
  | Some n => inr n
  | None => inl ValueError
  end.

Definition float_env (environ : gmap string string) (key : string)
  : Exc + PyFloat :=
  match PyText.py_float (get_env environ key) with
  | Some x => inr x
  | None => inl ValueError
  end.

Definition exc_bind {A B} (r : Exc + A) (k : A -> Exc + B) : Exc + B :=
  match r with
  | inl e => inl e
  | inr a => k a
  end.

(** [_load_config]: the keyword arguments are evaluated in the order
    written, and the first conversion that raises ends the call.  The
    result carries the records [_parse_retention_time] logged. *)
Definition load_config (environ : gmap string string)
  : list (Level * LogMsg) * (Exc + CleanupConfig) :=
  let dirs := PyText.split ","%char (get_env environ "CLEANUP_DIRECTORIES") in
  let '(retention, logged) :=
    parse_retention_time (get_env environ "RETENTION_DAYS") in
  (logged,
   exc_bind (int_env environ "MAX_FILES_PER_DIR") (fun max_files =>
   exc_bind (int_env environ "MAX_DISK_SIZE_MB") (fun max_mb =>
   exc_bind (int_env environ "SCAN_INTERVAL") (fun scan =>
   exc_bind (int_env environ "HEARTBEAT_INTERVAL") (fun hb_interval =>
   exc_bind (float_env environ "CPU_THRESHOLD") (fun cpu =>
   exc_bind (int_env environ "HEARTBEAT_TIMEOUT") (fun hb_timeout =>
   inr (mkCleanupConfig dirs retention max_files (max_mb * 1024 * 1024)
          scan hb_interval cpu (get_env environ "STATE_FILE")
          hb_timeout)))))))).

(* ===================================================================== *)
(** ** Threads: the cleanup worker and the heartbeat supervisor *)
(* ===================================================================== *)

(** Where a cleanup thread stands in [_cleanup_loop]: about to test
    [while self.running], inside [_perform_cleanup], inside the
    one-second-step wait with so many steps left, or returned. *)
Inductive WorkerPc := LoopHead | InCycle | Sleeping (ticks : nat) | Exited.

(** Where the supervisor stands in [_heartbeat_monitor]: about to test
    [while self.running], inside the [join] of [_stop_cleanup_thread],
    in its sleep, or returned. *)
Inductive SupervisorPc := SupHead | SupJoining | SupSleeping | SupExited.

Record Sys := mkSys {
  st : St;
  workers : list WorkerPc;        (* every cleanup thread started so far *)
  cleanup_thread : option nat;    (* self.cleanup_thread, an index *)
  supervisor : SupervisorPc
}.

Definition set_st (x : St) (s : Sys) : Sys :=
  mkSys x (workers s) (cleanup_thread s) (supervisor s).

Definition set_worker (i : nat) (pc : WorkerPc) (s : Sys) : Sys :=
  mkSys (st s) (<[i := pc]> (workers s)) (cleanup_thread s) (supervisor s).

Definition set_supervisor (pc : SupervisorPc) (s : Sys) : Sys :=
  mkSys (st s) (workers s) (cleanup_thread s) pc.

(** [self.cleanup_thread and self.cleanup_thread.is_alive()] *)
Definition worker_alive (s : Sys) : bool :=
  match cleanup_thread s with
  | None => false
  | Some i =>
      match workers s !! i with
      | Some LoopHead | Some InCycle | Some (Sleeping _) => true
      | Some Exited | None => false
      end
  end.

(** [_start_cleanup_thread]: a new thread, entering [_cleanup_loop]. *)
Definition start_cleanup_thread (s : Sys) : Sys :=
  mkSys (snd (log INFO MsgThreadStarted (st s)))
        (workers s ++ [LoopHead])
        (Some (length (workers s)))
        (supervisor s).

(** [start] *)
Definition start (x : St) : Sys :=
  start_cleanup_thread (mkSys (snd (set_running true x)) [] None SupHead).

(** One step of cleanup thread [i] in [_cleanup_loop]; the flag tells
    whether the step begins a cleanup cycle.  A thread that passes the
    test of the loop is inside [_perform_cleanup] until its next step,
    which ends the cycle: the cycle takes effect there, against the
    world as it then is, and the wait begins.  Other threads step in
    between.  Every operation of [_perform_cleanup] that can fail in
    this model is caught inside it, so the [except] of the loop and its
    pause of 60 seconds are not reached. *)
Definition worker_step (i : nat) (s : Sys) : option (bool * Sys) :=
  match workers s !! i with
  | Some LoopHead =>
      if running (self (st s)) then Some (true, set_worker i InCycle s)
      else Some (false, set_worker i Exited s)
  | Some InCycle =>
      let x := snd (perform_cleanup (st s)) in
      let ticks := Z.to_nat (scan_interval (config (self x))) in
      Some (false, set_worker i (Sleeping ticks) (set_st x s))
  | Some (Sleeping (S k)) =>
      if running (self (st s)) then Some (false, set_worker i (Sleeping k) s)
      else Some (false, set_worker i LoopHead s)
  | Some (Sleeping O) => Some (false, set_worker i LoopHead s)
  | Some Exited | None => None
  end.

(** [current_time - self.last_heartbeat > self.config.heartbeat_timeout] *)
Definition heartbeat_timed_out (x : St) : bool :=
  heartbeat_timeout (config (self x)) <? clock (os x) - last_heartbeat (self x).

(** One step of the supervisor.  At the loop head it tests [running] and
    runs the checks of one tick; on a stalled worker it enters
    [_stop_cleanup_thread], which clears [self.running] and waits in
    [join]; when the wait ends, over or timed out, it starts the
    replacement. *)
Definition supervisor_step (s : Sys) : option Sys :=
  match supervisor s with
  | SupHead =>
      if running (self (st s)) then
        if negb (worker_alive s) then
          let s := set_st (snd (log WARNING MsgWorkerNotRunning (st s))) s in
          Some (set_supervisor SupSleeping (start_cleanup_thread s))
        else if heartbeat_timed_out (st s) then
          let x := snd ((log WARNING MsgHeartbeatTimeout ;;
                         log INFO MsgStoppingThread ;;
                         set_running false) (st s)) in
          Some (set_supervisor SupJoining (set_st x s))
        else
          let s := set_st (snd (log DEBUG MsgHeartbeatOk (st s))) s in
          Some (set_supervisor SupSleeping s)
      else Some (set_supervisor SupExited s)
  | SupJoining =>
      let s := if worker_alive s
               then set_st (snd (log WARNING MsgThreadForced (st s))) s
               else s in
      Some (set_supervisor SupSleeping (start_cleanup_thread s))
  | SupSleeping => Some (set_supervisor SupHead s)
  | SupExited => None
  end.

Inductive Label :=
| LCycle (i : nat)      (* thread [i] entered [_perform_cleanup] *)
| LWorker (i : nat)     (* any other step of thread [i] *)
| LSupervisor
| LEnv.

(** Interleavings: any live thread may take its next step; the world
    outside may change at any time, and a thread may die. *)
Inductive step : Sys -> Label -> Sys -> Prop :=
| Step_cycle s i s' :
    worker_step i s = Some (true, s') -> step s (LCycle i) s'
| Step_worker s i s' :
    worker_step i s = Some (false, s') -> step s (LWorker i) s'
| Step_supervisor s s' :
    supervisor_step s = Some s' -> step s LSupervisor s'
| Step_world s w :
    step s LEnv (set_st (mkSt w (self (st s))) s)
| Step_kill s i :
    step s LEnv (set_worker i Exited s).

Inductive steps : Sys -> list Label -> Sys -> Prop :=
| steps_nil s : steps s [] s
| steps_cons s l s' tr s'' :
    step s l s' -> steps s' tr s'' -> steps s (l :: tr) s''.

(** Can [p] be unlinked in [w]? *)
Definition deletable (w : World) (p : string) : Prop :=
  p ∈ dom (fs_files w) ∧ p ∉ fs_locked w.

Definition set_file_registry (r : gmap string (list FileInfo)) (d : Daemon)
  : Daemon :=
  mkDaemon (config d) r (running d) (last_heartbeat d) (logger d).

(** The tail the three policies share: run the deletion loop over the
    victims, store the keep-list, return the count. *)
Definition evict (removed_msg : string -> LogMsg) (directory : string)
    (victims keep : list FileInfo) : M nat :=
  files_removed <- delete_files removed_msg victims ;;
  registry_store directory keep ;;
  ret files_removed.

(** What a pass that evicts [victims] and keeps [keep] leaves behind,
    from state [s] to result [r]: the entry is [keep] and the rest of the
    daemon is as before up to the log; the world differs in its files
    only; the count is the number of files that left the disk; every
    victim is either counted or reported by a warning; a victim that
    cannot be unlinked makes the count fall short; a locked file stays. *)
Definition pass_outcome (s : St) (directory : string)
    (victims keep : list FileInfo) (r : nat * St) : Prop :=
  self (snd r)
  = set_file_registry (<[directory := keep]> (file_registry (self s)))
      (set_logger (logger (self (snd r))) (self s)) ∧
  os (snd r) = set_fs_files (fs_files (os (snd r))) (os s) ∧
  (fst r + base.size (fs_files (os (snd r))))%nat
  = base.size (fs_files (os s)) ∧
  (fst r + delete_failures (logger (self (snd r))))%nat
  = (delete_failures (logger (self s)) + length victims)%nat ∧
  dom (fs_files (os (snd r))) ⊆ dom (fs_files (os s)) ∧
  (∀ f, f ∈ victims → ¬ deletable (os s) (path f) →
        (fst r < length victims)%nat) ∧
  (∀ p, p ∈ dom (fs_files (os s)) → p ∈ fs_locked (os s) →
        p ∈ dom (fs_files (os (snd r)))).

(** Oldest first: the order [files.sort(key=lambda x: x.mtime)] leaves. *)
Definition mtime_le (a b : FileInfo) : Prop := mtime a <= mtime b.

(** The record of a file as a scan of [directory] takes it from the
    world: present, under the directory, and its stat readable. *)
Definition scanned (w : World) (directory : string) (f : FileInfo) : Prop :=
  exists stat,
    fs_files w !! path f = Some stat ∧
    (path f ∉ fs_unstatable w) ∧
    relative_to (Path directory) (path f) = Some (relative_path f) ∧
    size f = st_size stat ∧ mtime f = st_mtime stat.

(** [directory] names a directory whose walk raises nowhere. *)
Definition walk_completes (w : World) (directory : string) : Prop :=
  Path directory ∈ fs_dirs w ∧ walked w (Path directory) ## fs_unwalkable w.

(** What the count returned by a cap policy accounts for, whatever the
    world does to the deletions: the entry the pass leaves is the same in
    every world; the count is the number of files that left the disk;
    the records dropped from the entry are the files counted plus the
    deletions that failed (each reported by a warning), so a failure
    makes the count smaller than the number of records dropped. *)
Definition pass_accounting (policy : string -> M nat) : Prop :=
  ∀ (s : St) (directory : string),
    let r := policy directory s in
    let before := default [] (file_registry (self s) !! directory) in
    let after := default [] (file_registry (self (snd r)) !! directory) in
    let dropped := (length before - length after)%nat in
    (∀ w : World,
       file_registry (self (snd (policy directory (mkSt w (self s)))))
       = file_registry (self (snd r))) ∧
    (fst r + base.size (fs_files (os (snd r))))%nat
    = base.size (fs_files (os s)) ∧
    (fst r + delete_failures (logger (self (snd r))))%nat
    = (delete_failures (logger (self s)) + dropped)%nat ∧
    ((delete_failures (logger (self s))
      < delete_failures (logger (self (snd r))))%nat →
     (fst r < dropped)%nat).

(** ** Scenarios *)

Definition sample_config (max_files max_bytes : Z) : CleanupConfig :=
  mkCleanupConfig ["/var/log"%string] (3 * 86400) max_files max_bytes
    300 300 (Finite (80 # 1)) "/tmp/cleanup_daemon_state.json" 600.

Definition sample_world (files : list (string * Stat)) (locked : gset string)
    (now : Z) (cpu : Q) : World :=
  mkWorld (list_to_map files) {["/var/log"%string]} locked ∅ ∅ None true true
          now (Some cpu).

Definition sample_daemon (cfg : CleanupConfig) (entry : list FileInfo)
  : Daemon :=
  mkDaemon cfg {["/var/log"%string := entry]} true 0 [].

(** The clock of the scenarios: day 100. *)
Definition day100 : Z := 100 * 86400.

Definition rec_10d : FileInfo :=
  mkFileInfo "/var/log/a.log" 50 (day100 - 10 * 86400) "a.log".
Definition rec_2d : FileInfo :=
  mkFileInfo "/var/log/b.log" 60 (day100 - 2 * 86400) "b.log".
Definition rec_1h : FileInfo :=
  mkFileInfo "/var/log/c.log" 40 (day100 - 3600) "c.log".
Definition rec_4d : FileInfo :=
  mkFileInfo "/var/log/d.log" 30 (day100 - 4 * 86400) "d.log".
Definition rec_5d : FileInfo :=
  mkFileInfo "/var/log/e.log" 20 (day100 - 5 * 86400) "e.log".

Definition on_disk (f : FileInfo) : string * Stat :=
  (path f, mkStat (size f) (mtime f)).

(** Three files aged 10 days, 2 days and 1 hour; retention 3 days. *)
Definition three_files (locked : gset string) : St :=
  mkSt (sample_world (on_disk <$> [rec_10d; rec_2d; rec_1h]) locked
          day100 (10 # 1))
       (sample_daemon (sample_config 10000 10737418240)
          [rec_10d; rec_2d; rec_1h]).

(** Five files under a cap of three files, and of 100 bytes. *)
Definition five_files (locked : gset string) : St :=
  mkSt (sample_world (on_disk <$> [rec_2d; rec_10d; rec_1h; rec_5d; rec_4d])
          locked day100 (10 # 1))
       (sample_daemon (sample_config 3 100)
          [rec_2d; rec_10d; rec_1h; rec_5d; rec_4d]).

(** At 95% against the default threshold of 80, with the clock at day
    100 and the last heartbeat at 0: after the cycle the heartbeat is
    still 0. *)
Definition busy_state : St :=
  mkSt (sample_world (on_disk <$> [rec_10d; rec_2d; rec_1h]) ∅ day100 (95 # 1))
       (sample_daemon (sample_config 10000 10737418240)
          [rec_10d; rec_2d; rec_1h]).


(** The three files of [three_files] tracked under a negative cap on the
    number of files, and under a negative cap on their size. *)
Definition negative_count_cap : St :=
  mkSt (os (three_files ∅))
       (sample_daemon (sample_config (-1) 10737418240)
          [rec_10d; rec_2d; rec_1h]).


(** One item of the document [_save_state] writes. *)
Definition encode_entry (e : string * list FileInfo) : string * Json :=
  (fst e, JArr (map encode_file (snd e))).

(** What a walk that completes records for one entry of the file table:
    nothing for a path outside [dir_path] or one whose stat raises. *)
Definition scan_record (dir_path : string) (w : World) (e : string * Stat)
  : option FileInfo :=
  match relative_to dir_path (fst e) with
  | None => None
  | Some rel =>
      if bool_decide (fst e ∈ fs_unstatable w) then None
      else Some (mkFileInfo (fst e) (st_size (snd e)) (st_mtime (snd e)) rel)
  end.

(** A worker asleep between two cycles whose last heartbeat (0) is far
    older than the timeout of 600 at the supervisor's tick (day 100). *)
Definition stalled_system : Sys :=
  mkSys (three_files ∅) [Sleeping 5] (Some 0%nat) SupHead.

(** A daemon just constructed and started at day 100, its heartbeat
    fresh, on a machine whose CPU stays at 95%. *)
Definition busy_daemon : Sys :=
  start (snd (set_last_heartbeat day100 busy_state)).

(* ===================================================================== *)
(** ** Further operations of the daemon *)
(* ===================================================================== *)

(** The unit suffix [_format_seconds] prints after the number. *)
Inductive TimeUnit := Days | Hours | Minutes | Seconds.

Definition unit_seconds (u : TimeUnit) : Z :=
  match u with
  | Days => 86400
  | Hours => 3600
  | Minutes => 60
  | Seconds => 1
  end.

(** [_format_seconds]: the number printed and its unit ([//] is floor
    division). *)
Definition format_seconds (seconds : Z) : Z * TimeUnit :=
  if 86400 <=? seconds then (seconds / 86400, Days)
  else if 3600 <=? seconds then (seconds / 3600, Hours)
  else if 60 <=? seconds then (seconds / 60, Minutes)
  else (seconds, Seconds).

(** The value of a run of decimal digits, most significant first. *)
Definition decimal (ds : list ascii) : Z :=
  foldl (fun acc c => 10 * acc + PyText.digit_value c) 0 ds.

(** [sep.join(pieces)], the inverse of [split]. *)
Fixpoint join (sep : ascii) (pieces : list string) : string :=
  match pieces with
  | [] => EmptyString
  | [x] => x
  | x :: rest => String.append x (String sep (join sep rest))
  end.

(** Does the text hold the character? *)
Definition has_char (c : ascii) (s : string) : Prop :=
  c ∈ String.list_ascii_of_string s.

(** What a policy pass on [directory] never does: it invents or alters
    no record (the entry it leaves is a sub-multiset of the entry it
    found); it touches no other entry, nor the configuration, the
    running flag or the heartbeat; in the world it changes nothing but
    the file table, where every file is either left as it was or gone,
    and a file can only go if a record of the entry named its path. *)
Definition policy_frame (policy : string -> M nat) : Prop :=
  ∀ (s : St) (directory : string),
    let s' := snd (policy directory s) in
    let before := default [] (file_registry (self s) !! directory) in
    let after := default [] (file_registry (self s') !! directory) in
    after ⊆+ before ∧
    (∀ d, d ≠ directory →
          file_registry (self s') !! d = file_registry (self s) !! d) ∧
    config (self s') = config (self s) ∧
    running (self s') = running (self s) ∧
    last_heartbeat (self s') = last_heartbeat (self s) ∧
    os s' = set_fs_files (fs_files (os s')) (os s) ∧
    (∀ p, fs_files (os s') !! p = fs_files (os s) !! p ∨
          (fs_files (os s') !! p = None ∧ p ∈ path <$> before)).

(** The records tracked for a directory:
    [self.file_registry.get(directory, [])]. *)
Definition tracked (s : St) (directory : string) : list FileInfo :=
  default [] (file_registry (self s) !! directory).

(** The three limits of the configuration, for a list of records at a
    given cutoff time. *)
Definition within_limits (cfg : CleanupConfig) (cutoff : Z)
    (l : list FileInfo) : Prop :=
  (∀ f, f ∈ l → cutoff <= mtime f) ∧
  Z.of_nat (length l) <= max_files_per_dir cfg ∧
  total_size l <= max_disk_size_bytes cfg.

(** While the daemon runs, only the thread the daemon holds as
    [self.cleanup_thread] may still be in its loop: every other cleanup
    thread has returned, and the supervisor is not in the middle of a
    stop-and-restart.  At any time, at most one thread is inside a
    cleanup cycle. *)
Definition single_runner (s : Sys) : Prop :=
  (running (self (st s)) = true →
   supervisor s ≠ SupJoining ∧
   ∀ i pc, workers s !! i = Some pc → cleanup_thread s ≠ Some i →
           pc = Exited) ∧
  ∀ i j, workers s !! i = Some InCycle → workers s !! j = Some InCycle →
         i = j.

(** Steps of thread [i] alone, none of which begins a cleanup cycle. *)
Fixpoint quiet_steps (n : nat) (i : nat) (s : Sys) : option Sys :=
  match n with
  | O => Some s
  | S n =>
      match worker_step i s with
      | Some (false, s1) => quiet_steps n i s1
      | _ => None
      end
  end.

(* ===================================================================== *)
(** * Properties *)
(* ===================================================================== *)

(** ** The state monad *)

Ltac run := unfold bind, ret, get_os, get_self, put_os, registry_get,
  registry_store, set_registry, set_last_heartbeat, set_running, log in *;
  simpl in *.

Lemma St_eta (s : St) : mkSt (os s) (self s) = s.
Proof. by destruct s. Qed.

Lemma Daemon_eta (d : Daemon) :
  mkDaemon (config d) (file_registry d) (running d) (last_heartbeat d)
           (logger d) = d.
Proof. by destruct d. Qed.

Lemma World_eta (w : World) : set_fs_files (fs_files w) w = w.
Proof. by destruct w. Qed.

(** ** Sorting by modification time *)

Lemma insert_by_mtime_perm f l : insert_by_mtime f l ≡ₚ f :: l.
Proof.
  induction l as [|g r IH]; simpl; [done|].
  case_match; [done|]. rewrite IH. apply perm_swap.
Qed.

Lemma sort_by_mtime_perm l : sort_by_mtime l ≡ₚ l.
Proof.
  induction l as [|f r IH]; simpl; [done|].
  by rewrite insert_by_mtime_perm, IH.
Qed.

Lemma sort_by_mtime_length l : length (sort_by_mtime l) = length l.
Proof. by rewrite sort_by_mtime_perm. Qed.

Lemma insert_by_mtime_sorted f l :
  StronglySorted mtime_le l -> StronglySorted mtime_le (insert_by_mtime f l).
Proof.
  induction 1 as [|g r Hr IH Hg]; simpl.
  - repeat constructor.
  - destruct (Z.leb_spec (mtime f) (mtime g)) as [Hle|Hgt].
    + constructor; [by constructor|].
      constructor; [done|].
      eapply Forall_impl; [exact Hg|]. unfold mtime_le. intros; lia.
    + constructor; [done|].
      rewrite insert_by_mtime_perm. constructor; [|done].
      unfold mtime_le. lia.
Qed.

Lemma sort_by_mtime_sorted l : StronglySorted mtime_le (sort_by_mtime l).
Proof.
  induction l; simpl; [constructor|by apply insert_by_mtime_sorted].
Qed.

(** Stability: records of equal modification time keep the order they
    had in the registry entry. *)
Lemma insert_by_mtime_stable t f l :
  filter (fun g => mtime g = t) (insert_by_mtime f l)
  = filter (fun g => mtime g = t) (f :: l).
Proof.
  induction l as [|g r IH]; simpl; [done|].
  destruct (Z.leb_spec (mtime f) (mtime g)) as [Hle|Hgt]; [done|].
  rewrite (filter_cons _ g), IH, !filter_cons.
  repeat case_decide; try done; lia.
Qed.

Lemma sort_by_mtime_stable t l :
  filter (fun g => mtime g = t) (sort_by_mtime l)
  = filter (fun g => mtime g = t) l.
Proof.
  induction l as [|f r IH]; simpl; [done|].
  by rewrite insert_by_mtime_stable, !filter_cons, IH.
Qed.

Lemma total_size_cons f l : total_size (f :: l) = size f + total_size l.
Proof.
  unfold total_size. simpl.
  assert (H : forall l a, foldl (fun acc f => acc + size f) a l
                          = a + foldl (fun acc f => acc + size f) 0 l).
  { clear. induction l as [|g r IH]; intros a; simpl; [lia|].
    rewrite (IH (a + size g)), (IH (0 + size g)). lia. }
  rewrite H. lia.
Qed.

Lemma total_size_app l1 l2 :
  total_size (l1 ++ l2) = total_size l1 + total_size l2.
Proof.
  induction l1 as [|f r IH]; [done|].
  simpl. rewrite !total_size_cons, IH. lia.
Qed.

Lemma total_size_perm l1 l2 : l1 ≡ₚ l2 -> total_size l1 = total_size l2.
Proof.
  induction 1 as [|x l l' _ IH|x y l|l l' l'' _ IH1 _ IH2];
    rewrite ?total_size_cons; lia.
Qed.

(** ** The deletion loop *)

Lemma delete_failures_app a b :
  delete_failures (a ++ b) = (delete_failures a + delete_failures b)%nat.
Proof.
  induction a as [|[lv m] r IH]; simpl; [done|].
  destruct lv, m; simpl; lia.
Qed.

Lemma unlink_Some p w w' :
  unlink p w = Some w' ->
  w' = set_fs_files (delete p (fs_files w)) w ∧
  is_Some (fs_files w !! p) ∧ p ∉ fs_locked w.
Proof.
  unfold unlink. case_bool_decide as H; [|done].
  intros [= <-]. destruct H as [H1 H2]. by apply elem_of_dom in H1.
Qed.


Lemma delete_files_spec msg l s :
  let r := delete_files msg l s in
  os (snd r) = set_fs_files (fs_files (os (snd r))) (os s) ∧
  self (snd r) = set_logger (logger (self (snd r))) (self s) ∧
  (base.size (fs_files (os (snd r))) + fst r = base.size (fs_files (os s)))%nat ∧
  (fst r + delete_failures (logger (self (snd r)))
   = delete_failures (logger (self s)) + length l)%nat ∧
  dom (fs_files (os (snd r))) ⊆ dom (fs_files (os s)).
Proof.
  revert s. induction l as [|f rest IH]; intros s; simpl.
  - destruct s as [w d]; destruct w, d; simpl. split_and!; try done; lia.
  - run. destruct (unlink (path f) (os s)) as [w'|] eqn:Hu.
    + destruct (unlink_Some _ _ _ Hu) as (Hw & [stat Hstat] & _).
      subst w'. simpl.
      match goal with |- context [delete_files msg rest ?s1] =>
        specialize (IH s1); destruct (delete_files msg rest s1) as [n s2]
      end.
      simpl in *. destruct IH as (IH1 & IH2 & IH3 & IH4 & IH5).
      split_and!.
      * by rewrite IH1.
      * by rewrite IH2.
      * rewrite map_size_delete, Hstat in IH3.
        assert (base.size (fs_files (os s)) ≠ 0%nat).
        { intros H0. apply map_size_empty_inv in H0.
          rewrite H0 in Hstat. by rewrite lookup_empty in Hstat. }
        lia.
      * rewrite delete_failures_app in IH4. simpl in IH4. lia.
      * etrans; [exact IH5|]. rewrite dom_delete. set_solver.
    + match goal with |- context [delete_files msg rest ?s1] =>
        specialize (IH s1); destruct (delete_files msg rest s1) as [n s2]
      end.
      simpl in *. destruct IH as (IH1 & IH2 & IH3 & IH4 & IH5).
      split_and!; try done.
      rewrite delete_failures_app in IH4. simpl in IH4. lia.
Qed.

Lemma delete_files_le msg l s : (fst (delete_files msg l s) <= length l)%nat.
Proof.
  revert s. induction l as [|f rest IH]; intros s; simpl; [done|].
  run. destruct (unlink (path f) (os s)) as [w'|]; simpl.
  - match goal with |- context [delete_files msg rest ?s1] =>
      specialize (IH s1); destruct (delete_files msg rest s1) as [n s2]
    end. simpl in *. lia.
  - match goal with |- context [delete_files msg rest ?s1] =>
      specialize (IH s1); destruct (delete_files msg rest s1) as [n s2]
    end. simpl in *. lia.
Qed.

(** A record whose file cannot be unlinked makes the count fall short. *)
Lemma delete_files_failure msg l s f :
  f ∈ l -> ¬ deletable (os s) (path f) ->
  (fst (delete_files msg l s) < length l)%nat.
Proof.
  revert s. induction l as [|g rest IH]; intros s Hin Hbad.
  { by apply elem_of_nil in Hin. }
  simpl. run. destruct (unlink (path g) (os s)) as [w'|] eqn:Hu; simpl.
  - destruct (unlink_Some _ _ _ Hu) as (Hw & Hg & Hlock). subst w'.
    apply elem_of_cons in Hin as [->|Hin].
    { exfalso. apply Hbad. split; [by apply elem_of_dom|done]. }
    match goal with |- context [delete_files msg rest ?s1] =>
      specialize (IH s1 Hin); destruct (delete_files msg rest s1) as [n s2]
    end. simpl in *.
    assert (n < length rest)%nat; [|lia].
    apply IH. unfold deletable in *. simpl. rewrite dom_delete. set_solver.
  - pose proof (delete_files_le msg rest
      (mkSt (os s) (set_logger (logger (self s) ++
         [(WARNING, MsgDeleteFailed (path g))]) (self s)))) as Hle.
    unfold set_logger in Hle.
    destruct (delete_files msg rest _) as [n s2]. simpl in *. lia.
Qed.

(** When every record names a distinct, deletable file, all are removed. *)
Lemma delete_files_all msg l s :
  NoDup (path <$> l) -> Forall (fun f => deletable (os s) (path f)) l ->
  fst (delete_files msg l s) = length l.
Proof.
  revert s. induction l as [|g rest IH]; intros s Hnd Hall; [done|].
  simpl. run. apply NoDup_cons in Hnd as [Hg Hnd].
  apply Forall_cons in Hall as [Hdg Hall].
  unfold unlink. rewrite bool_decide_eq_true_2 by exact Hdg. simpl.
  match goal with |- context [delete_files msg rest ?s1] =>
    specialize (IH s1 Hnd); destruct (delete_files msg rest s1) as [n s2] eqn:E
  end. simpl in *. rewrite IH; [done|].
  clear E IH. induction rest as [|h r IHr]; [constructor|].
  apply Forall_cons in Hall as [Hh Hall]. simpl in Hg.
  apply not_elem_of_cons in Hg as [Hne Hg].
  apply NoDup_cons in Hnd as [_ Hnd].
  constructor; [|by apply IHr].
  unfold deletable in *. simpl. rewrite dom_delete. set_solver.
Qed.

(** A locked file survives the loop. *)
Lemma delete_files_locked msg l s p :
  p ∈ dom (fs_files (os s)) -> p ∈ fs_locked (os s) ->
  p ∈ dom (fs_files (os (snd (delete_files msg l s)))).
Proof.
  revert s. induction l as [|g rest IH]; intros s Hp Hl; [done|].
  simpl. run. destruct (unlink (path g) (os s)) as [w'|] eqn:Hu; simpl.
  - destruct (unlink_Some _ _ _ Hu) as (Hw & Hg & Hlock). subst w'.
    match goal with |- context [delete_files msg rest ?s1] =>
      specialize (IH s1); destruct (delete_files msg rest s1) as [n s2]
    end. simpl in *. apply IH; [|done].
    rewrite dom_delete. set_solver.
  - match goal with |- context [delete_files msg rest ?s1] =>
      specialize (IH s1); destruct (delete_files msg rest s1) as [n s2]
    end. simpl in *. by apply IH.
Qed.

(** ** Filters *)

Lemma filter_none {A} (P : A -> Prop) `{!∀ x, Decision (P x)} (l : list A) :
  (∀ x, x ∈ l → ¬ P x) -> filter P l = [].
Proof.
  induction l as [|x l IH]; intros Hl; [done|].
  rewrite filter_cons_False by (apply Hl; left).
  apply IH. intros y Hy. apply Hl. by right.
Qed.

Lemma filter_all {A} (P : A -> Prop) `{!∀ x, Decision (P x)} (l : list A) :
  (∀ x, x ∈ l → P x) -> filter P l = l.
Proof.
  induction l as [|x l IH]; intros Hl; [done|].
  rewrite filter_cons_True by (apply Hl; left).
  f_equal. apply IH. intros y Hy. apply Hl. by right.
Qed.

(** ** The age policy *)

(** [f not in to_remove], for a record of the entry, says that [f] is
    not older than the cutoff. *)
Lemma age_keep_filter cutoff (files : list FileInfo) :
  filter (fun f => f ∉ filter (fun g => mtime g < cutoff) files) files
  = filter (fun f => cutoff <= mtime f) files.
Proof.
  assert (H : forall l, l ⊆ files ->
    filter (fun f => f ∉ filter (fun g => mtime g < cutoff) files) l
    = filter (fun f => cutoff <= mtime f) l).
  { induction l as [|x l IH]; intros Hsub; [done|].
    rewrite !filter_cons, IH by set_solver.
    assert (Hx : x ∈ files) by set_solver.
    destruct (decide (cutoff <= mtime x)) as [Hle|Hgt].
    - rewrite decide_True; [done|].
      rewrite list_elem_of_filter. lia.
    - rewrite decide_False; [done|].
      intros Hn. apply Hn. apply list_elem_of_filter. split; [lia|done]. }
  by apply H.
Qed.

Lemma evict_outcome msg directory victims keep s0 s :
  os s = os s0 ->
  self s = set_logger (logger (self s)) (self s0) ->
  delete_failures (logger (self s)) = delete_failures (logger (self s0)) ->
  pass_outcome s0 directory victims keep (evict msg directory victims keep s).
Proof.
  intros Hos Hself Hfail. unfold evict, pass_outcome. run.
  pose proof (delete_files_spec msg victims s) as Hs.
  pose proof (fun f => delete_files_failure msg victims s f) as Hf.
  pose proof (delete_files_locked msg victims s) as Hl.
  destruct (delete_files msg victims s) as [n s1]. simpl in *.
  destruct Hs as (H1 & H2 & H3 & H4 & H5).
  rewrite Hos in *. rewrite Hfail in *.
  split_and!; try done; try lia.
  rewrite H2, Hself. done.
Qed.

Lemma cleanup_by_time_eq directory s :
  cleanup_by_time directory s =
  let files := default [] (file_registry (self s) !! directory) in
  let cutoff := clock (os s) - retention_seconds (config (self s)) in
  let expired := filter (fun f => mtime f < cutoff) files in
  let keep := filter (fun f => f ∉ expired) files in
  evict MsgRemovedByTime directory expired keep
    (match expired with
     | [] => s
     | _ :: _ => snd (log INFO (MsgOverRetention directory (length expired)) s)
     end).
Proof.
  unfold cleanup_by_time, evict. run.
  by destruct (filter _ _) as [|e es].
Qed.

Lemma cleanup_by_time_outcome directory s :
  let files := default [] (file_registry (self s) !! directory) in
  let cutoff := clock (os s) - retention_seconds (config (self s)) in
  pass_outcome s directory
    (filter (fun f => mtime f < cutoff) files)
    (filter (fun f => cutoff <= mtime f) files)
    (cleanup_by_time directory s).
Proof.
  intros files cutoff. rewrite cleanup_by_time_eq. fold files cutoff. simpl.
  rewrite (age_keep_filter cutoff files).
  apply evict_outcome; destruct (filter _ files); simpl; try done.
  - by destruct s as [w []].
  - rewrite delete_failures_app. simpl. lia.
Qed.

(** ** The count-cap policy *)

Lemma cleanup_by_count_eq directory s :
  cleanup_by_count directory s =
  let files := default [] (file_registry (self s) !! directory) in
  let current_count := Z.of_nat (length files) in
  let max_count := max_files_per_dir (config (self s)) in
  let need_remove := Z.to_nat (current_count - max_count) in
  if current_count <=? max_count then (0%nat, s)
  else evict MsgRemovedByCount directory
         (take need_remove (sort_by_mtime files))
         (drop need_remove (sort_by_mtime files))
         (snd (log INFO (MsgCountOver directory current_count max_count
                           (current_count - max_count)) s)).
Proof.
  unfold cleanup_by_count, evict. run.
  by destruct (_ <=? _).
Qed.

Lemma cleanup_by_count_outcome directory s :
  let files := default [] (file_registry (self s) !! directory) in
  let need_remove :=
    Z.to_nat (Z.of_nat (length files) - max_files_per_dir (config (self s))) in
  max_files_per_dir (config (self s)) < Z.of_nat (length files) ->
  pass_outcome s directory
    (take need_remove (sort_by_mtime files))
    (drop need_remove (sort_by_mtime files))
    (cleanup_by_count directory s).
Proof.
  intros files need_remove Hover. rewrite cleanup_by_count_eq.
  fold files. simpl. rewrite (proj2 (Z.leb_gt _ _)) by done.
  apply evict_outcome; simpl; try done.
  rewrite delete_failures_app. simpl. lia.
Qed.

(** ** The size-cap policy *)

Lemma cleanup_by_size_eq directory s :
  cleanup_by_size directory s =
  let files := default [] (file_registry (self s) !! directory) in
  let total := total_size files in
  let max_size := max_disk_size_bytes (config (self s)) in
  let victims := size_victims (sort_by_mtime files) total max_size in
  if total <=? max_size then (0%nat, s)
  else evict MsgRemovedBySize directory victims
         (drop (length victims) (sort_by_mtime files))
         (snd (log INFO (MsgSizeOver directory total max_size
                           (length victims)) s)).
Proof.
  unfold cleanup_by_size, evict. run.
  by destruct (_ <=? _).
Qed.

Lemma cleanup_by_size_outcome directory s :
  let files := default [] (file_registry (self s) !! directory) in
  let max_size := max_disk_size_bytes (config (self s)) in
  let victims :=
    size_victims (sort_by_mtime files) (total_size files) max_size in
  max_size < total_size files ->
  pass_outcome s directory victims
    (drop (length victims) (sort_by_mtime files))
    (cleanup_by_size directory s).
Proof.
  intros files max_size victims Hover. rewrite cleanup_by_size_eq.
  fold files max_size. simpl. fold victims.
  rewrite (proj2 (Z.leb_gt _ _)) by done.
  apply evict_outcome; simpl; try done.
  rewrite delete_failures_app. simpl. lia.
Qed.

(** The victims are a prefix of the list walked. *)
Lemma size_victims_prefix l c m :
  size_victims l c m = take (length (size_victims l c m)) l.
Proof.
  revert c. induction l as [|f r IH]; intros c; simpl; [done|].
  destruct (c <=? m); simpl; [done|]. by rewrite <- IH.
Qed.

(** What the loop leaves is within the cap. *)
Lemma size_victims_rest l m :
  0 <= m ->
  total_size (drop (length (size_victims l (total_size l) m)) l) <= m.
Proof.
  intros Hm. induction l as [|f r IH]; simpl; [done|].
  destruct (Z.leb_spec (total_size (f :: r)) m) as [Hle|Hgt]; simpl; [done|].
  rewrite total_size_cons.
  replace (size f + total_size r - size f) with (total_size r) by lia.
  exact IH.
Qed.


(** ** Scenarios of the specification *)

Example age_scenario :
  let r := cleanup_by_time "/var/log" (three_files ∅) in
  fst r = 1%nat ∧
  file_registry (self (snd r)) !! "/var/log"%string = Some [rec_2d; rec_1h] ∧
  dom (fs_files (os (snd r))) = {["/var/log/b.log"; "/var/log/c.log"]}%string.
Proof. vm_compute. split_and!; try done. Qed.

Example count_scenario :
  let r := cleanup_by_count "/var/log" (five_files ∅) in
  fst r = 2%nat ∧
  file_registry (self (snd r)) !! "/var/log"%string
  = Some [rec_4d; rec_2d; rec_1h] ∧
  dom (fs_files (os (snd r)))
  = {["/var/log/b.log"; "/var/log/c.log"; "/var/log/d.log"]}%string.
Proof. vm_compute. split_and!; try done. Qed.

(** 200 bytes in all under a cap of 100: the three oldest go (50, 20 and
    30 bytes), and the loop stops at exactly 100. *)
Example size_scenario :
  let r := cleanup_by_size "/var/log" (five_files ∅) in
  fst r = 3%nat ∧
  file_registry (self (snd r)) !! "/var/log"%string = Some [rec_2d; rec_1h] ∧
  total_size [rec_2d; rec_1h] = 100.
Proof. vm_compute. split_and!; try done. Qed.

(** ** C2: the age policy and failed deletions *)

(** C2, as stated, fails: a record whose file could not be deleted is not
    kept.  The 10-day-old file is locked, so its unlink raises: nothing
    is counted, the file is still on disk, the failure is logged, and
    yet its record has left the Registry entry. *)
Lemma age_pass_failed_delete_not_kept :
  let s := three_files {["/var/log/a.log"%string]} in
  let r := cleanup_by_time "/var/log" s in
  file_registry (self s) !! "/var/log"%string
  = Some [rec_10d; rec_2d; rec_1h] ∧
  fst r = 0%nat ∧
  fs_files (os (snd r)) !! "/var/log/a.log"%string
  = Some (mkStat 50 (day100 - 10 * 86400)) ∧
  logger (self (snd r))
  = [(INFO, MsgOverRetention "/var/log" 1);
     (WARNING, MsgDeleteFailed "/var/log/a.log")] ∧
  file_registry (self (snd r)) !! "/var/log"%string = Some [rec_2d; rec_1h].
Proof. by vm_compute. Qed.

(** C2, amended: after the age pass the Registry entry holds exactly the
    records not older than the cutoff, in their order, whether or not
    the deletions succeeded; other entries are untouched.  The count
    returned is the number of files that left the disk; each expired
    record is either counted or reported by a "delete failed" warning,
    and a locked file, though its record is dropped, stays on disk. *)
Theorem age_pass_drops_every_expired_record (s : St) (directory : string) :
  let files := default [] (file_registry (self s) !! directory) in
  let cutoff := clock (os s) - retention_seconds (config (self s)) in
  let expired := filter (fun f => mtime f < cutoff) files in
  let r := cleanup_by_time directory s in
  file_registry (self (snd r))
  = <[directory := filter (fun f => cutoff <= mtime f) files]>
      (file_registry (self s)) ∧
  (fst r + base.size (fs_files (os (snd r))))%nat
  = base.size (fs_files (os s)) ∧
  (fst r + delete_failures (logger (self (snd r))))%nat
  = (delete_failures (logger (self s)) + length expired)%nat ∧
  (∀ p, p ∈ dom (fs_files (os s)) → p ∈ fs_locked (os s) →
        p ∈ dom (fs_files (os (snd r)))).
Proof.
  intros files cutoff expired r.
  destruct (cleanup_by_time_outcome directory s)
    as (H1 & H2 & H3 & H4 & H5 & H6 & H7).
  fold files cutoff expired r in H1, H2, H3, H4, H5, H6, H7.
  split_and!; try done. by rewrite H1.
Qed.

(** ** C9: the age pass is idempotent *)

(** C9: after one age pass no record older than the cutoff is tracked,
    and a second pass at the same clock on the state the first one left
    removes nothing: it returns 0 and changes neither the Registry, nor
    the disk, nor the log. *)
Theorem age_pass_idempotent (s : St) (directory : string) :
  let cutoff := clock (os s) - retention_seconds (config (self s)) in
  let s1 := snd (cleanup_by_time directory s) in
  clock (os s1) - retention_seconds (config (self s1)) = cutoff ∧
  (∀ f, f ∈ default [] (file_registry (self s1) !! directory) →
        ¬ mtime f < cutoff) ∧
  cleanup_by_time directory s1 = (0%nat, s1).
Proof.
  intros cutoff s1.
  destruct (cleanup_by_time_outcome directory s) as (H1 & H2 & _).
  fold cutoff s1 in H1, H2.
  set (files := default [] (file_registry (self s) !! directory)) in *.
  assert (Hcut : clock (os s1) - retention_seconds (config (self s1)) = cutoff).
  { rewrite H1, H2. done. }
  assert (Hentry : file_registry (self s1) !! directory
                   = Some (filter (fun f => cutoff <= mtime f) files)).
  { rewrite H1. simpl. apply lookup_insert_eq. }
  split_and!; [done| |].
  - rewrite Hentry. simpl. intros f Hf.
    apply list_elem_of_filter in Hf as [Hf _]. lia.
  - rewrite cleanup_by_time_eq. simpl. rewrite Hcut, Hentry. simpl.
    set (kept := filter (fun f => cutoff <= mtime f) files).
    assert (Hnone : filter (fun f => mtime f < cutoff) kept = []).
    { apply filter_none. intros f Hf.
      apply list_elem_of_filter in Hf as [Hf _]. lia. }
    rewrite Hnone. unfold evict. run.
    rewrite filter_all by (intros f _; apply not_elem_of_nil).
    rewrite insert_id by done.
    by destruct s1 as [w []].
Qed.

(** ** C5: the count-cap pass *)

Lemma sorted_split_le (l1 l2 : list FileInfo) a b :
  StronglySorted mtime_le (l1 ++ l2) -> a ∈ l1 -> b ∈ l2 ->
  mtime a <= mtime b.
Proof.
  intros Hs Ha Hb.
  exact (StronglySorted_app_1_elem_of mtime_le l1 l2 a b Hs Ha Hb).
Qed.

(** C5, as stated, fails for a negative cap: the pass then removes every
    record, and the entry holds none instead of [C]. *)
Lemma count_cap_negative_leaves_no_record :
  max_files_per_dir (config (self negative_count_cap)) = -1 ∧
  tracked negative_count_cap "/var/log" = [rec_10d; rec_2d; rec_1h] ∧
  tracked (snd (cleanup_by_count "/var/log" negative_count_cap)) "/var/log"
  = [] ∧
  Z.of_nat
    (length (tracked (snd (cleanup_by_count "/var/log" negative_count_cap))
               "/var/log"))
  ≠ max_files_per_dir (config (self negative_count_cap)).
Proof. by vm_compute. Qed.

(** C5, amended: with a cap [C] and [N] tracked files.  If [N <= C] the
    pass returns 0 and leaves the whole state as it was.  If [N > C] the
    entry after the pass holds exactly [C] records when [C] is not
    negative and none when it is; the records removed ([N - C] of them
    when [C] is not negative, all of them otherwise) together with those
    kept are the records of the entry, oldest first, so no removed
    record is newer than a kept one; and records of equal modification
    time stay in the order the entry had them, which settles ties. *)
Theorem count_cap_pass (s : St) (directory : string) :
  let files := default [] (file_registry (self s) !! directory) in
  let N := Z.of_nat (length files) in
  let C := max_files_per_dir (config (self s)) in
  (N <= C -> cleanup_by_count directory s = (0%nat, s)) ∧
  (C < N ->
   ∃ removed kept : list FileInfo,
     file_registry (self (snd (cleanup_by_count directory s)))
     = <[directory := kept]> (file_registry (self s)) ∧
     Z.of_nat (length kept) = Z.max 0 C ∧
     Z.of_nat (length removed) = N - Z.max 0 C ∧
     removed ++ kept ≡ₚ files ∧
     StronglySorted mtime_le (removed ++ kept) ∧
     (∀ a b, a ∈ removed → b ∈ kept → mtime a <= mtime b) ∧
     (∀ t, filter (fun f => mtime f = t) (removed ++ kept)
           = filter (fun f => mtime f = t) files)).
Proof.
  intros files N C. split.
  - intros Hle. rewrite cleanup_by_count_eq. fold files N C. simpl.
    by rewrite (proj2 (Z.leb_le _ _)).
  - intros Hover.
    destruct (cleanup_by_count_outcome directory s Hover) as (H1 & _).
    fold files N C in H1.
    set (k := Z.to_nat (N - C)) in *.
    exists (take k (sort_by_mtime files)), (drop k (sort_by_mtime files)).
    assert (Hlen : length (sort_by_mtime files) = length files)
      by apply sort_by_mtime_length.
    rewrite take_drop.
    split_and!.
    + by rewrite H1.
    + rewrite length_drop, Hlen. subst k N. lia.
    + rewrite length_take, Hlen. subst k N. lia.
    + apply sort_by_mtime_perm.
    + apply sort_by_mtime_sorted.
    + intros a b Ha Hb.
      apply (sorted_split_le (take k (sort_by_mtime files))
                             (drop k (sort_by_mtime files))); try done.
      rewrite take_drop. apply sort_by_mtime_sorted.
    + intros t. apply sort_by_mtime_stable.
Qed.

Lemma count_cap_pass_witness :
  cleanup_by_count "/var/log" (three_files ∅) = (0%nat, three_files ∅) ∧
  ∃ kept,
    file_registry (self (snd (cleanup_by_count "/var/log" (five_files ∅))))
    !! "/var/log"%string = Some kept ∧
    length kept = 3%nat.
Proof.
  split.
  - apply (proj1 (count_cap_pass (three_files ∅) "/var/log")).
    vm_compute. discriminate.
  - destruct (proj2 (count_cap_pass (five_files ∅) "/var/log"))
      as (removed & kept & Hreg & Hkept & _).
    + vm_compute. reflexivity.
    + exists kept. split.
      * rewrite Hreg. apply lookup_insert_eq.
      * simpl in Hkept. lia.
Defined.

(** ** C6: the size-cap pass *)





(** ** C10: what the cap policies store and what they count *)

Lemma pass_outcome_accounting (policy : string -> M nat)
    (under_cap : Daemon -> string -> bool)
    (victims keep : Daemon -> string -> list FileInfo) :
  (∀ s directory,
     if under_cap (self s) directory then policy directory s = (0%nat, s)
     else
       pass_outcome s directory (victims (self s) directory)
         (keep (self s) directory) (policy directory s) ∧
       (length (default [] (file_registry (self s) !! directory))
        = length (victims (self s) directory)
          + length (keep (self s) directory))%nat) ->
  pass_accounting policy.
Proof.
  intros Hout s directory r before after dropped.
  pose proof (Hout s directory) as Hs.
  assert (Hreg : ∀ w, file_registry (self (snd (policy directory
                                   (mkSt w (self s)))))
                      = file_registry (self (snd r))).
  { intros w. subst r. pose proof (Hout (mkSt w (self s)) directory) as Hw.
    simpl in Hw. destruct (under_cap (self s) directory).
    - by rewrite Hs, Hw.
    - destruct Hs as [(Hs & _) _]. destruct Hw as [(Hw & _) _].
      by rewrite Hs, Hw. }
  split; [exact Hreg|]. subst r.
  destruct (under_cap (self s) directory).
  - subst after dropped before. rewrite Hs. simpl. split_and!; lia.
  - destruct Hs as [(H1 & H2 & H3 & H4 & _) Hlen].
    assert (Hd : dropped = length (victims (self s) directory)).
    { subst dropped after before. rewrite H1. simpl.
      rewrite lookup_insert_eq. simpl. lia. }
    rewrite Hd. split_and!; [done|done|lia].
Qed.

(** C10: for the count-cap and the size-cap policy alike, the Registry
    entry after a pass does not depend on the outcome of the deletions
    (it is the same in every world); the integer returned is the number
    of files that left the disk; the records dropped are those counted
    plus those whose deletion failed, so that a failed deletion makes
    the returned count strictly smaller than the number of records
    dropped. *)
Theorem cap_passes_store_keep_list_and_count_unlinks :
  pass_accounting cleanup_by_count ∧ pass_accounting cleanup_by_size.
Proof.
  split.
  - apply (pass_outcome_accounting _
      (fun d directory =>
         Z.of_nat (length (default [] (file_registry d !! directory)))
         <=? max_files_per_dir (config d))
      (fun d directory =>
         let files := default [] (file_registry d !! directory) in
         take (Z.to_nat (Z.of_nat (length files)
                         - max_files_per_dir (config d)))
              (sort_by_mtime files))
      (fun d directory =>
         let files := default [] (file_registry d !! directory) in
         drop (Z.to_nat (Z.of_nat (length files)
                         - max_files_per_dir (config d)))
              (sort_by_mtime files))).
    intros s directory. simpl.
    destruct (Z.leb_spec
                (Z.of_nat (length (default [] (file_registry (self s)
                                                 !! directory))))
                (max_files_per_dir (config (self s)))) as [Hle|Hgt].
    + rewrite cleanup_by_count_eq. simpl.
      by rewrite (proj2 (Z.leb_le _ _)).
    + split; [by apply cleanup_by_count_outcome|].
      rewrite <- length_app, take_drop. by rewrite sort_by_mtime_length.
  - apply (pass_outcome_accounting _
      (fun d directory =>
         total_size (default [] (file_registry d !! directory))
         <=? max_disk_size_bytes (config d))
      (fun d directory =>
         let files := default [] (file_registry d !! directory) in
         size_victims (sort_by_mtime files) (total_size files)
           (max_disk_size_bytes (config d)))
      (fun d directory =>
         let files := default [] (file_registry d !! directory) in
         drop (length (size_victims (sort_by_mtime files) (total_size files)
                         (max_disk_size_bytes (config d))))
              (sort_by_mtime files))).
    intros s directory. simpl.
    destruct (Z.leb_spec
                (total_size (default [] (file_registry (self s) !! directory)))
                (max_disk_size_bytes (config (self s)))) as [Hle|Hgt].
    + rewrite cleanup_by_size_eq. simpl.
      by rewrite (proj2 (Z.leb_le _ _)).
    + split; [by apply cleanup_by_size_outcome|].
      rewrite (size_victims_prefix (sort_by_mtime _) _ _) at 1.
      rewrite <- length_app, take_drop. by rewrite sort_by_mtime_length.
Qed.

(** A failed deletion under each cap: the oldest file is locked.  The
    count-cap pass drops two records and counts one; the size-cap pass
    drops three and counts two. *)
Lemma cap_passes_failed_delete_witness :
  (let r := cleanup_by_count "/var/log"
              (five_files {["/var/log/a.log"%string]}) in
   fst r = 1%nat ∧
   file_registry (self (snd r)) !! "/var/log"%string
   = Some [rec_4d; rec_2d; rec_1h]) ∧
  (let r := cleanup_by_size "/var/log"
              (five_files {["/var/log/a.log"%string]}) in
   fst r = 2%nat ∧
   file_registry (self (snd r)) !! "/var/log"%string
   = Some [rec_2d; rec_1h]) ∧
  (fst (cleanup_by_count "/var/log" (five_files {["/var/log/a.log"%string]}))
   < 5 - 3)%nat.
Proof.
  split; [by vm_compute|]. split; [by vm_compute|].
  destruct cap_passes_store_keep_list_and_count_unlinks as [Hc _].
  pose proof (proj2 (proj2 (proj2
    (Hc (five_files {["/var/log/a.log"%string]}) "/var/log"%string)))) as H.
  apply H. vm_compute. lia.
Defined.

(** ** C1: a cycle skipped by the CPU gate *)

(** C1, on the code: when the sample exceeds the threshold the cycle is
    the early return of [_perform_cleanup].  The world is untouched (no
    scan, no deletion, no write of the state file) and so is the
    Registry; the only trace is one log record.  The early return also
    leaves before the heartbeat assignment: [last_heartbeat] keeps its
    old value. *)
Theorem cpu_busy_cycle_leaves_heartbeat_stale (s : St) (u : Q) :
  cpu_percent (os s) = Some u ->
  float_gt u (cpu_threshold (config (self s))) = true ->
  let s' := snd (perform_cleanup s) in
  os s' = os s ∧
  self s' = set_logger (logger (self s) ++ [(INFO, MsgCpuBusySkip)]) (self s) ∧
  file_registry (self s') = file_registry (self s) ∧
  last_heartbeat (self s') = last_heartbeat (self s).
Proof.
  intros Hu Hgt. unfold perform_cleanup, is_cpu_busy. run.
  rewrite Hu. simpl. rewrite Hgt. simpl. done.
Qed.

Lemma cpu_busy_cycle_witness :
  clock (os busy_state) = 8640000 ∧
  os (snd (perform_cleanup busy_state)) = os busy_state ∧
  last_heartbeat (self (snd (perform_cleanup busy_state))) = 0.
Proof.
  destruct (cpu_busy_cycle_leaves_heartbeat_stale busy_state (95 # 1))
    as (Hos & _ & _ & Hhb).
  - reflexivity.
  - reflexivity.
  - split_and!; [reflexivity|exact Hos|exact Hhb].
Defined.

(** ** C8: the directory scanner *)

Lemma scan_entries_spec dir_path entries s :
  let r := scan_entries dir_path entries s in
  os (snd r) = os s ∧
  self (snd r) = set_logger (logger (self (snd r))) (self s) ∧
  fst r
  = if decide (Forall (fun e => is_Some (relative_to dir_path (fst e)) →
                               fst e ∉ fs_unwalkable (os s)) entries)
    then Some (omap (scan_record dir_path (os s)) entries)
    else None.
Proof.
  revert s. induction entries as [|[p stat] rest IH]; intros s; simpl.
  { by destruct s as [w []]. }
  unfold scan_record at 1. simpl.
  destruct (relative_to dir_path p) as [rel|] eqn:Hrel.
  2: { destruct (IH s) as (H1 & H2 & H3). split_and!; try done.
       rewrite H3. destruct (decide _) as [Hr|Hr], (decide _) as [Hc|Hc];
         try done.
       - destruct Hc. constructor; [|done]. simpl. rewrite Hrel.
         by intros [? ?].
       - destruct Hr. by apply Forall_cons in Hc as [_ ?]. }
  run. case_bool_decide as Hw; simpl.
  { destruct s as [w []]. split_and!; try done.
    destruct (decide _) as [Hc|]; [|done].
    apply Forall_cons in Hc as [Hc _]. simpl in Hc. rewrite Hrel in Hc.
    by destruct Hc. }
  assert (Hequiv : ∀ w',
    Forall (fun e => is_Some (relative_to dir_path (fst e)) →
                     fst e ∉ fs_unwalkable w') ((p, stat) :: rest)
    ↔ (p ∉ fs_unwalkable w') ∧
      Forall (fun e => is_Some (relative_to dir_path (fst e)) →
                     fst e ∉ fs_unwalkable w') rest).
  { intros w'. rewrite Forall_cons. simpl. rewrite Hrel. split.
    - intros [H ?]. split; [by apply H|done].
    - intros [? ?]. done. }
  destruct (bool_decide (p ∈ fs_unstatable (os s))); simpl.
  - match goal with |- context [scan_entries dir_path rest ?s1] =>
      specialize (IH s1); destruct (scan_entries dir_path rest s1) as [l s2]
    end. simpl in *. destruct IH as (IH1 & IH2 & IH3).
    split_and!; try done.
    rewrite IH3. destruct (decide _) as [Hr|Hr], (decide _) as [Hc|Hc];
      try done.
    + destruct Hc. by apply Hequiv.
    + destruct Hr. by apply Hequiv in Hc as [_ ?].
  - specialize (IH s).
    destruct (scan_entries dir_path rest s) as [l s2].
    simpl in *. destruct IH as (IH1 & IH2 & IH3).
    split_and!; try done. rewrite IH3.
    destruct (decide _) as [Hr|Hr], (decide _) as [Hc|Hc]; try done.
    + destruct Hc. by apply Hequiv.
    + destruct Hr. by apply Hequiv in Hc as [_ ?].
Qed.

Lemma scan_record_path dir_path w e f :
  scan_record dir_path w e = Some f -> path f = fst e.
Proof.
  unfold scan_record. destruct (relative_to _ _); [|done].
  case_bool_decide; [done|]. by intros [= <-].
Qed.


Lemma scan_records_elem directory w f :
  f ∈ omap (scan_record (Path directory) w) (map_to_list (fs_files w))
  ↔ scanned w directory f.
Proof.
  rewrite list_elem_of_omap. unfold scanned, scan_record. split.
  - intros ([p stat] & He & Hf). apply elem_of_map_to_list in He.
    simpl in Hf.
    destruct (relative_to (Path directory) p) as [rel|] eqn:Hrel; [|done].
    case_bool_decide as Hst; [done|]. injection Hf as <-. simpl.
    by exists stat.
  - intros (stat & Hp & Hst & Hrel & Hsz & Hmt).
    exists (path f, stat). split; [by apply elem_of_map_to_list|].
    simpl. rewrite Hrel, bool_decide_eq_false_2 by done.
    destruct f; simpl in *. by subst.
Qed.

(** The files of a walk raise nowhere exactly when the walk's paths are
    apart from the paths that raise, the directories being so already. *)
Lemma walked_files_ok w dir_path :
  walked_dirs w dir_path ## fs_unwalkable w ->
  Forall (fun e : string * Stat =>
            is_Some (relative_to dir_path (fst e)) →
            fst e ∉ fs_unwalkable w) (map_to_list (fs_files w))
  ↔ walked w dir_path ## fs_unwalkable w.
Proof.
  intros Hd. unfold walked. rewrite Forall_forall. split.
  - intros H p [Hp|Hp]%elem_of_union Hw; [by apply (Hd p)|].
    apply elem_of_filter in Hp as [Hrel [stat Hp]%elem_of_dom].
    by apply (H (p, stat)); [apply elem_of_map_to_list| |].
  - intros H [p stat] Hp%elem_of_map_to_list Hrel Hw. simpl in *.
    apply (H p); [|done]. apply elem_of_union_r, elem_of_filter.
    split; [done|]. by apply elem_of_dom.
Qed.

Lemma scan_directory_os directory s :
  os (snd (scan_directory directory s)) = os s.
Proof.
  unfold scan_directory. run.
  repeat (case_bool_decide; simpl; try done).
  pose proof (scan_entries_spec (Path directory)
                (map_to_list (fs_files (os s))) s) as Hs.
  destruct (scan_entries _ _ s) as [[l|] s1]; simpl in *; by destruct Hs.
Qed.

(** The configured text is read as [pathlib] reads it: a trailing
    separator does not hide the files, and the entry is stored under
    the text as configured.  A path that is a regular file exists, its
    walk yields nothing, and its entry becomes the empty list without a
    word in the log. *)
Example scan_reads_directory_as_pathlib :
  tracked (snd (scan_directory "/var/log/" (three_files ∅))) "/var/log/"
  = [rec_1h; rec_10d; rec_2d] ∧
  file_registry (self (snd (scan_directory "/var/log/a.log" (three_files ∅))))
  !! "/var/log/a.log"%string = Some [] ∧
  logger (self (snd (scan_directory "/var/log/a.log" (three_files ∅)))) = [].
Proof. by vm_compute. Qed.




(** ** C7: save, then load *)

Lemma dict_set_fresh k v (l : list (string * Json)) :
  k ∉ l.*1 -> dict_set k v l = l ++ [(k, v)].
Proof.
  induction l as [|[k' v'] r IH]; simpl; [done|].
  intros [Hne Hr]%not_elem_of_cons.
  rewrite bool_decide_eq_false_2 by done. by rewrite IH.
Qed.

(** A member list without repeated keys is its own dict. *)
Lemma py_dict_NoDup (members : list (string * Json)) :
  NoDup (members.*1) -> py_dict members = members.
Proof.
  unfold py_dict.
  assert (H : ∀ l acc, NoDup ((acc ++ l).*1) →
    foldl (fun acc kv => dict_set (fst kv) (snd kv) acc) acc l = acc ++ l).
  { induction l as [|[k v] r IH]; intros acc Hnd; simpl.
    - by rewrite app_nil_r.
    - rewrite dict_set_fresh.
      + rewrite IH; rewrite <- app_assoc; done.
      + rewrite fmap_app in Hnd. apply NoDup_app in Hnd as (_ & Hd & _).
        intros Hk. apply (Hd k Hk). simpl. left. }
  intros Hnd. by apply (H members []).
Qed.

Lemma decode_encode_file f : decode_file (encode_file f) = Some f.
Proof. by destruct f. Qed.

Lemma decode_encode_files files :
  decode_files (JArr (map encode_file files)) = Some files.
Proof.
  simpl. apply (mapM_fmap_Some decode_file encode_file).
  apply decode_encode_file.
Qed.

Lemma load_entries_encoded (l : list (string * list FileInfo)) s :
  load_entries (map encode_entry l) s
  = (true,
     mkSt (os s)
       (set_file_registry
          (foldl (fun r e => <[fst e := snd e]> r) (file_registry (self s)) l)
          (self s))).
Proof.
  revert s. induction l as [|[d files] r IH]; intros s; simpl.
  - by destruct s as [w []].
  - unfold encode_entry at 1. simpl.
    pose proof (decode_encode_files files) as Hd. simpl in Hd. rewrite Hd.
    run. by rewrite IH.
Qed.

Lemma encode_entry_keys (l : list (string * list FileInfo)) :
  (map encode_entry l).*1 = l.*1.
Proof. induction l as [|[k v] r IH]; simpl; [done|]. by f_equal. Qed.

(** Storing the items of a map one after the other rebuilds the map. *)
Lemma foldl_insert_map_to_list (r : gmap string (list FileInfo)) :
  foldl (fun m e => <[fst e := snd e]> m) ∅ (map_to_list r) = r.
Proof.
  rewrite <- (list_to_map_to_list r) at 2.
  rewrite <- (list_to_map_proper (reverse (map_to_list r)) (map_to_list r)).
  - rewrite <- (reverse_involutive (map_to_list r)) at 1.
    generalize (reverse (map_to_list r)). intros l.
    induction l as [|[k v] l IH]; [done|].
    rewrite reverse_cons, foldl_app. simpl. by rewrite IH.
  - rewrite fmap_reverse, reverse_Permutation. apply NoDup_fst_map_to_list.
  - apply reverse_Permutation.
Qed.

(** C7: when the state file can be written, saving a Registry and then
    loading the file into the empty registry of a newly constructed
    daemon, before any rescan, gives back the Registry: the same
    directories, each with the same records in the same order, equal
    field for field. *)
Theorem save_then_load_round_trip (s : St) (d0 : Daemon) :
  store_ok (os s) = true ->
  file_registry d0 = ∅ ->
  let saved := snd (save_state s) in
  let loaded := snd (load_state_file (mkSt (os saved) d0)) in
  file_registry (self loaded) = file_registry (self s) ∧
  logger (self loaded) = logger d0 ++ [(INFO, MsgStateLoaded)].
Proof.
  intros Hok Hempty saved loaded. subst saved loaded.
  unfold save_state, load_state_file. run. rewrite Hok. simpl.
  unfold encode_registry.
  change (map (fun '(dir_path, files) =>
                 (dir_path, JArr (map encode_file files))))
    with (map (fun e : string * list FileInfo =>
                 let '(dir_path, files) := e in
                 (dir_path, JArr (map encode_file files)))).
  rewrite (map_ext _ encode_entry) by (by intros []).
  rewrite py_dict_NoDup.
  - rewrite load_entries_encoded. simpl.
    rewrite Hempty, foldl_insert_map_to_list. done.
  - rewrite encode_entry_keys. apply NoDup_fst_map_to_list.
Qed.

Lemma save_then_load_witness :
  file_registry
    (self (snd (load_state_file
                  (mkSt (os (snd (save_state (five_files ∅))))
                        (mkDaemon (sample_config 3 100) ∅ true 0 [])))))
  = file_registry (self (five_files ∅)).
Proof.
  apply (save_then_load_round_trip (five_files ∅)
           (mkDaemon (sample_config 3 100) ∅ true 0 [])).
  - reflexivity.
  - reflexivity.
Defined.

(** ** C3: malformed configuration values *)

(** The retention parser is the one place with a fallback: text without
    a leading number gives the default of three days and a warning. *)
Example retention_falls_back :
  parse_retention_time "abc" = (259200, [(WARNING, MsgRetentionParseFailed)]) ∧
  parse_retention_time "" = (259200, [(WARNING, MsgRetentionEmpty)]) ∧
  parse_retention_time "1.2.3" = (259200, [(WARNING, MsgRetentionParseFailed)]) ∧
  parse_retention_time "7d" = (604800, []).
Proof. by vm_compute. Qed.

Example defaults_load :
  load_config ∅
  = ([], inr (mkCleanupConfig ["/var/log"%string] 259200 10000 10737418240
                300 300 (Finite (800 # 10)) "/tmp/cleanup_daemon_state.json"
                600)).
Proof. by vm_compute. Qed.

(** The loader returns a configuration exactly when each of the five
    integers and the float converts. *)
Lemma load_config_succeeds_iff (environ : gmap string string) :
  (∃ cfg, snd (load_config environ) = inr cfg) ↔
  is_Some (PyText.py_int (get_env environ "MAX_FILES_PER_DIR")) ∧
  is_Some (PyText.py_int (get_env environ "MAX_DISK_SIZE_MB")) ∧
  is_Some (PyText.py_int (get_env environ "SCAN_INTERVAL")) ∧
  is_Some (PyText.py_int (get_env environ "HEARTBEAT_INTERVAL")) ∧
  is_Some (PyText.py_float (get_env environ "CPU_THRESHOLD")) ∧
  is_Some (PyText.py_int (get_env environ "HEARTBEAT_TIMEOUT")).
Proof.
  unfold load_config, int_env, float_env, exc_bind.
  destruct (parse_retention_time _) as [retention logged]. simpl.
  destruct (PyText.py_int (get_env environ "MAX_FILES_PER_DIR"));
  destruct (PyText.py_int (get_env environ "MAX_DISK_SIZE_MB"));
  destruct (PyText.py_int (get_env environ "SCAN_INTERVAL"));
  destruct (PyText.py_int (get_env environ "HEARTBEAT_INTERVAL"));
  destruct (PyText.py_float (get_env environ "CPU_THRESHOLD"));
  destruct (PyText.py_int (get_env environ "HEARTBEAT_TIMEOUT"));
  split; try (intros [cfg [=]]); try (intros (?&?&?&?&?&?));
  try (by eauto 10); repeat match goal with
                            | H : is_Some None |- _ => by destruct H
                            end.
Qed.

(** C3, on the code: a value that [int] (or, for the CPU threshold,
    [float]) does not accept is not replaced by a default: the
    conversion raises [ValueError] out of [_load_config], hence out of
    the constructor. *)
Theorem load_config_raises_on_malformed_number (environ : gmap string string) :
  PyText.py_int (get_env environ "MAX_FILES_PER_DIR") = None ∨
  PyText.py_int (get_env environ "MAX_DISK_SIZE_MB") = None ∨
  PyText.py_int (get_env environ "SCAN_INTERVAL") = None ∨
  PyText.py_int (get_env environ "HEARTBEAT_INTERVAL") = None ∨
  PyText.py_float (get_env environ "CPU_THRESHOLD") = None ∨
  PyText.py_int (get_env environ "HEARTBEAT_TIMEOUT") = None ->
  snd (load_config environ) = inl ValueError.
Proof.
  unfold load_config, int_env, float_env, exc_bind.
  destruct (parse_retention_time _) as [retention logged]. simpl.
  destruct (PyText.py_int (get_env environ "MAX_FILES_PER_DIR"));
  destruct (PyText.py_int (get_env environ "MAX_DISK_SIZE_MB"));
  destruct (PyText.py_int (get_env environ "SCAN_INTERVAL"));
  destruct (PyText.py_int (get_env environ "HEARTBEAT_INTERVAL"));
  destruct (PyText.py_float (get_env environ "CPU_THRESHOLD"));
  destruct (PyText.py_int (get_env environ "HEARTBEAT_TIMEOUT"));
  intros H; try done; by repeat destruct H as [H|H].
Qed.

Lemma load_config_malformed_witness :
  snd (load_config {["MAX_FILES_PER_DIR"%string := "abc"%string]})
  = inl ValueError ∧
  snd (load_config {["SCAN_INTERVAL"%string := "5 minutes"%string]})
  = inl ValueError ∧
  snd (load_config {["CPU_THRESHOLD"%string := "high"%string]})
  = inl ValueError.
Proof.
  split_and!.
  - apply load_config_raises_on_malformed_number.
    left. by vm_compute.
  - apply load_config_raises_on_malformed_number.
    right; right; left. by vm_compute.
  - apply load_config_raises_on_malformed_number.
    right; right; right; right; left. by vm_compute.
Defined.

(** ** The cycle that is not skipped *)

Lemma evict_clock msg directory victims keep s :
  clock (os (snd (evict msg directory victims keep s))) = clock (os s).
Proof.
  destruct (evict_outcome msg directory victims keep s s) as (_ & H & _);
    [done|by destruct s as [w []]|done|].
  by rewrite H.
Qed.

Lemma cleanup_by_time_clock directory s :
  clock (os (snd (cleanup_by_time directory s))) = clock (os s).
Proof.
  rewrite cleanup_by_time_eq. simpl. rewrite evict_clock.
  by destruct (filter _ _).
Qed.

Lemma cleanup_by_count_clock directory s :
  clock (os (snd (cleanup_by_count directory s))) = clock (os s).
Proof.
  rewrite cleanup_by_count_eq. simpl.
  destruct (_ <=? _); [done|]. by rewrite evict_clock.
Qed.

Lemma cleanup_by_size_clock directory s :
  clock (os (snd (cleanup_by_size directory s))) = clock (os s).
Proof.
  rewrite cleanup_by_size_eq. simpl.
  destruct (_ <=? _); [done|]. by rewrite evict_clock.
Qed.

Lemma cleanup_directories_clock dirs s :
  clock (os (snd (cleanup_directories dirs s))) = clock (os s).
Proof.
  revert s. induction dirs as [|directory rest IH]; intros s; [done|].
  simpl. unfold bind at 1.
  pose proof (scan_directory_os directory s) as H0.
  destruct (scan_directory directory s) as [[] s0]. unfold bind at 1.
  pose proof (cleanup_by_time_clock directory s0) as H1.
  destruct (cleanup_by_time directory s0) as [n1 s1]. unfold bind at 1.
  pose proof (cleanup_by_count_clock directory s1) as H2.
  destruct (cleanup_by_count directory s1) as [n2 s2]. unfold bind at 1.
  pose proof (cleanup_by_size_clock directory s2) as H3.
  destruct (cleanup_by_size directory s2) as [n3 s3]. unfold bind at 1.
  simpl in *. rewrite IH. simpl. congruence.
Qed.

(** The path that C1's skipped cycle misses: a cycle that is not
    skipped ends by setting the heartbeat to the clock. *)
Lemma idle_cycle_refreshes_heartbeat (s : St) (u : Q) :
  cpu_percent (os s) = Some u ->
  float_gt u (cpu_threshold (config (self s))) = false ->
  last_heartbeat (self (snd (perform_cleanup s))) = clock (os s).
Proof.
  intros Hu Hgt. unfold perform_cleanup, is_cpu_busy.
  unfold bind at 1. unfold bind at 1. unfold get_os at 1.
  unfold bind at 1. unfold get_self at 1.
  rewrite Hu. unfold ret at 1. rewrite Hgt.
  unfold bind at 1. unfold log at 1. unfold bind at 1. unfold get_self at 1.
  unfold bind at 1. simpl self.
  match goal with |- context [cleanup_directories ?ds ?s0] =>
    pose proof (cleanup_directories_clock ds s0) as Hc;
    destruct (cleanup_directories ds s0) as [[] s1]
  end.
  unfold save_state. run.
  by destruct (store_ok (os s1)), (open_ok (os s1)); simpl; rewrite Hc.
Qed.

(* ===================================================================== *)
(** * Further properties of the code *)
(* ===================================================================== *)

(** ** Text helpers *)

Lemma lstrip_no_space c l : PyText.is_space c = false ->
  PyText.lstrip (c :: l) = c :: l.
Proof. intros H. simpl. by rewrite H. Qed.

Lemma lstrip_app_no_space a c b : PyText.is_space c = false ->
  PyText.lstrip (a ++ c :: b) = PyText.lstrip a ++ c :: b.
Proof.
  intros Hc. induction a as [|x a IH]; simpl.
  - by rewrite Hc.
  - destruct (PyText.is_space x); [exact IH|done].
Qed.

(** Stripping keeps a text that starts with a non-blank up to its last
    non-blank. *)
Lemma strip_head_kept c a d b :
  PyText.is_space c = false -> PyText.is_space d = false ->
  ∃ b', PyText.strip (c :: a ++ d :: b) = c :: a ++ d :: b'.
Proof.
  intros Hc Hd. unfold PyText.strip. rewrite lstrip_no_space by done.
  change (c :: a ++ d :: b) with ((c :: a) ++ d :: b).
  rewrite rev_app_distr. simpl rev at 1.
  rewrite <- app_assoc. simpl.
  rewrite (lstrip_app_no_space (rev b) d) by done.
  rewrite rev_app_distr. simpl. rewrite rev_app_distr, rev_involutive. simpl.
  rewrite <- !app_assoc. simpl. eauto.
Qed.

Lemma strip_single c : PyText.is_space c = false -> PyText.strip [c] = [c].
Proof. intros Hc. unfold PyText.strip. simpl. rewrite Hc. simpl. by rewrite Hc. Qed.

Lemma strip_no_space l :
  Forall (fun c => PyText.is_space c = false) l -> PyText.strip l = l.
Proof.
  intros Hl. unfold PyText.strip.
  assert (H : ∀ k, Forall (fun c => PyText.is_space c = false) k →
                   PyText.lstrip k = k).
  { intros [|x k] Hk; [done|]. apply lstrip_no_space.
    by apply Forall_cons in Hk as [? _]. }
  rewrite (H l Hl), H, rev_involutive; [done|].
  apply Forall_forall. intros x Hx.
  apply list_elem_of_In, in_rev, list_elem_of_In in Hx.
  by apply (proj1 (Forall_forall _ _) Hl).
Qed.

Lemma digit_is_not_space c : PyText.is_digit c = true -> PyText.is_space c = false.
Proof.
  unfold PyText.is_digit, PyText.is_space. generalize (nat_of_ascii c). intros n.
  repeat match goal with |- context [(?a <=? ?b)%nat] =>
    destruct (Nat.leb_spec a b) end; simpl; try done; lia.
Qed.

Lemma digit_lower c : PyText.is_digit c = true -> PyText.lower_char c = c.
Proof.
  unfold PyText.is_digit, PyText.lower_char. generalize (nat_of_ascii c). intros n.
  repeat match goal with |- context [(?a <=? ?b)%nat] =>
    destruct (Nat.leb_spec a b) end; simpl; try done; lia.
Qed.

Lemma digit_value_range c :
  PyText.is_digit c = true -> 0 <= PyText.digit_value c <= 9.
Proof.
  unfold PyText.is_digit, PyText.digit_value. generalize (nat_of_ascii c).
  intros n.
  repeat match goal with |- context [(?a <=? ?b)%nat] =>
    destruct (Nat.leb_spec a b) end; simpl; try done; lia.
Qed.

(** A digit is none of the characters the parsers treat specially. *)
Lemma digit_is_plain c d :
  PyText.is_digit c = true -> PyText.is_digit d = false -> c ≠ d.
Proof. intros Hc Hd ->. congruence. Qed.

Lemma digit_run_digits ds acc n b :
  Forall (fun c => PyText.is_digit c = true) ds ->
  ds ≠ [] ∨ b = true ->
  PyText.digit_run ds acc n b
  = Some (foldl (fun a c => 10 * a + PyText.digit_value c) acc ds,
          (n + length ds)%nat).
Proof.
  intros Hds. revert acc n b.
  induction Hds as [|c ds Hc Hds IH]; intros acc n b Hne; simpl.
  - destruct Hne as [?| ->]; [done|]. by rewrite Nat.add_0_r.
  - rewrite Hc, IH by (by right). do 2 f_equal. lia.
Qed.

Lemma digit_run_nonneg cs acc n b v k :
  0 <= acc -> PyText.digit_run cs acc n b = Some (v, k) -> 0 <= v.
Proof.
  revert acc n b. induction cs as [|c cs IH]; intros acc n b Hacc; simpl.
  - destruct b; [|done]. by intros [= <- _].
  - destruct (PyText.is_digit c) eqn:Hc.
    + apply IH. pose proof (digit_value_range c Hc). lia.
    + case_bool_decide; [|done]. destruct b; [|done]. by apply IH.
Qed.

Lemma split_at_none p l :
  Forall (fun c => p c = false) l -> PyText.split_at p l = (l, None).
Proof.
  induction 1 as [|c l Hc Hl IH]; simpl; [done|]. by rewrite Hc, IH.
Qed.

Lemma units_pos u k : units u = Some k -> 0 < k.
Proof.
  unfold units. repeat case_bool_decide; intros [=]; lia.
Qed.

Lemma units_not_numeric u k :
  units u = Some k ->
  PyText.is_digit u = false ∧ u ≠ "."%char ∧ PyText.is_space u = false ∧
  PyText.lower_char u = u.
Proof.
  unfold units. repeat case_bool_decide; intros [=]; by subst.
Qed.

Lemma retention_scan_chars cs unit :
  Forall (fun c => PyText.is_digit c = true ∨ c = "."%char)
         (fst (retention_scan cs unit)) ∧
  (snd (retention_scan cs unit) = unit
   ∨ is_Some (units (snd (retention_scan cs unit)))).
Proof.
  induction cs as [|c cs [IH1 IH2]]; simpl; [by split; [constructor|left]|].
  destruct (PyText.is_digit c) eqn:Hc; simpl.
  - destruct (retention_scan cs unit) as [num u]. simpl in *.
    split; [constructor; [by left|done]|done].
  - case_bool_decide as Hdot; simpl.
    + destruct (retention_scan cs unit) as [num u]. simpl in *.
      split; [constructor; [by right|done]|done].
    + case_bool_decide as Hu; simpl; split; try constructor; by eauto.
Qed.

Lemma retention_scan_number ds u rest unit :
  Forall (fun c => PyText.is_digit c = true) ds ->
  PyText.is_digit u = false -> u ≠ "."%char ->
  retention_scan (ds ++ u :: rest) unit
  = (ds, if bool_decide (is_Some (units u)) then u else unit).
Proof.
  intros Hds Hu Hdot. induction Hds as [|c ds Hc Hds IH]; simpl.
  - rewrite Hu. rewrite bool_decide_eq_false_2 by done. simpl.
    by case_bool_decide.
  - by rewrite Hc, IH.
Qed.

Lemma mantissa_nonneg m q : PyText.mantissa m = Some q -> 0 <= Qnum q.
Proof.
  unfold PyText.mantissa, PyText.digits_opt, PyText.digits.
  destruct (PyText.split_at _ m) as [ip fp].
  destruct (match ip with [] => _ | _ => _ end) as [[iv il]|] eqn:Hi; [|done].
  destruct (match default [] fp with [] => _ | _ => _ end)
    as [[fv fl]|] eqn:Hf; [|done].
  destruct (_ =? _)%nat; [done|]. intros [= <-]. simpl.
  assert (0 <= iv).
  { destruct ip; [by injection Hi as <- _|].
    by eapply digit_run_nonneg in Hi. }
  assert (0 <= fv).
  { destruct (default [] fp); [by injection Hf as <- _|].
    by eapply digit_run_nonneg in Hf. }
  assert (0 <= 10 ^ Z.of_nat fl) by (apply Z.pow_nonneg; lia).
  nia.
Qed.

(** A text of digits and dots, when [float] accepts it, is a finite
    value that is not negative. *)
Lemma py_float_unsigned l x :
  Forall (fun c => PyText.is_digit c = true ∨ c = "."%char) l ->
  PyText.py_float (String.string_of_list_ascii l) = Some x ->
  ∃ q, x = Finite q ∧ 0 <= Qnum q.
Proof.
  intros Hl. unfold PyText.py_float.
  rewrite String.list_ascii_of_string_of_list_ascii.
  rewrite strip_no_space.
  2:{ eapply Forall_impl; [exact Hl|]. intros c [Hc| ->]; [|done].
      by apply digit_is_not_space. }
  assert (Hsign : PyText.take_sign l = (false, l)).
  { destruct Hl as [|c l [Hc| ->] _]; simpl; try done.
    rewrite !bool_decide_eq_false_2; [done| |];
      apply (digit_is_plain _ _ Hc); done. }
  rewrite Hsign.
  assert (Hword : ∀ w : string,
            (∃ a t, w = String a t ∧ PyText.is_digit a = false ∧ a ≠ "."%char) →
            String.string_of_list_ascii (PyText.lower l) ≠ w).
  { intros w (a & t & -> & Ha & Hdot) Heq.
    destruct Hl as [|c l [Hc| ->] _]; simpl in Heq; [done| |].
    - rewrite (digit_lower c Hc) in Heq. injection Heq as -> _. congruence.
    - injection Heq as <- _. done. }
  rewrite bool_decide_eq_false_2.
  2:{ intros [H|H]; revert H; apply Hword; by eexists _, _. }
  rewrite bool_decide_eq_false_2 by (apply Hword; by eexists _, _).
  destruct (PyText.split_at PyText.is_e l) as [m e].
  destruct (PyText.mantissa m) as [q|] eqn:Hm; [|done].
  destruct (match e with None => _ | Some _ => _ end) as [ex|]; [|done].
  intros [= <-]. eexists. split; [done|]. simpl.
  apply mantissa_nonneg in Hm.
  pose proof (Qpower_0_le (10 # 1) ex) as Hp.
  unfold Qle in Hp. simpl in Hp. specialize (Hp ltac:(lia)). nia.
Qed.

(** ** The retention parser *)

(** X1: whatever the text, the retention [_parse_retention_time]
    returns is not negative: a sign is not part of the number it reads,
    so a text such as "-5d" gives the default. *)
Theorem retention_never_negative (time_str : string) :
  0 <= fst (parse_retention_time time_str).
Proof.
  unfold parse_retention_time.
  destruct (PyText.lower _) as [|c cs]; [simpl; lia|].
  pose proof (retention_scan_chars (c :: cs) "d"%char) as [Hnum _].
  destruct (retention_scan (c :: cs) "d") as [num u]. simpl fst in Hnum.
  destruct num as [|n num]; [simpl; lia|].
  destruct (PyText.py_float _) as [x|] eqn:Hx; [|simpl; lia].
  destruct (units u) as [k|] eqn:Hk; [|simpl; lia].
  destruct (py_float_unsigned _ _ Hnum Hx) as (q & -> & Hq).
  simpl. apply units_pos in Hk. apply Z.quot_pos; [nia|lia].
Qed.

Lemma digit_not_e c : PyText.is_digit c = true -> PyText.is_e c = false.
Proof.
  intros Hc. unfold PyText.is_e.
  rewrite !bool_decide_eq_false_2; [done| |]; by apply (digit_is_plain _ _ Hc).
Qed.

Lemma lower_digits ds :
  Forall (fun c => PyText.is_digit c = true) ds -> PyText.lower ds = ds.
Proof.
  induction 1 as [|c ds Hc _ IH]; simpl; [done|].
  by rewrite (digit_lower c Hc), IH.
Qed.

Lemma retention_scan_digits ds unit :
  Forall (fun c => PyText.is_digit c = true) ds ->
  retention_scan ds unit = (ds, unit).
Proof. induction 1 as [|c ds Hc _ IH]; simpl; [done|]. by rewrite Hc, IH. Qed.

(** [float] of a run of plain digits is their decimal value. *)
Lemma py_float_digits ds :
  Forall (fun c => PyText.is_digit c = true) ds -> ds ≠ [] ->
  ∃ q, PyText.py_float (String.string_of_list_ascii ds) = Some (Finite q) ∧
       Qnum q = decimal ds ∧ Qden q = 1%positive.
Proof.
  intros Hds Hne. unfold PyText.py_float.
  rewrite String.list_ascii_of_string_of_list_ascii.
  rewrite strip_no_space
    by (eapply Forall_impl; [exact Hds|]; apply digit_is_not_space).
  destruct Hds as [|c ds Hc Hds]; [done|].
  assert (Hsign : PyText.take_sign (c :: ds) = (false, c :: ds)).
  { simpl. rewrite !bool_decide_eq_false_2; [done| |];
      by apply (digit_is_plain _ _ Hc). }
  rewrite Hsign. simpl PyText.lower. rewrite (digit_lower c Hc).
  simpl String.string_of_list_ascii.
  rewrite bool_decide_eq_false_2.
  2:{ intros [[= -> _]|[= -> _]]; done. }
  rewrite bool_decide_eq_false_2 by (intros [= -> _]; done).
  rewrite split_at_none
    by (constructor; [by apply digit_not_e|];
        eapply Forall_impl; [exact Hds|]; apply digit_not_e).
  unfold PyText.mantissa.
  rewrite split_at_none.
  2:{ constructor.
      - apply bool_decide_eq_false_2. by apply (digit_is_plain _ _ Hc).
      - eapply Forall_impl; [exact Hds|]. intros d Hd.
        apply bool_decide_eq_false_2. by apply (digit_is_plain _ _ Hd). }
  unfold PyText.digits_opt, PyText.digits. simpl default.
  rewrite (digit_run_digits (c :: ds) 0 0 false)
    by (by constructor || by left).
  simpl. eexists. split; [done|]. simpl. unfold decimal. simpl. split; lia.
Qed.

(** X2: a run of digits followed by one of the unit letters s, m, h, d
    is that many units, in seconds, whatever follows the letter; a run
    of digits alone counts days.  No warning is logged.  This is for a
    number of seconds of at most [2^53], the range in which the float
    the source computes with holds the whole number exactly. *)
Theorem retention_number_and_unit (ds : list ascii) :
  Forall (fun c => PyText.is_digit c = true) ds -> ds ≠ [] ->
  (decimal ds * 86400 <= 2 ^ 53 →
   parse_retention_time (String.string_of_list_ascii ds)
   = (decimal ds * 86400, [])) ∧
  ∀ u k rest, units u = Some k → decimal ds * k <= 2 ^ 53 →
    parse_retention_time (String.string_of_list_ascii (ds ++ u :: rest))
    = (decimal ds * k, []).
Proof.
  intros Hds Hne.
  destruct (py_float_digits ds Hds Hne) as (q & Hq & Hn & Hd).
  assert (Hval : ∀ k, int_of_float (float_mul_int (Finite q) k)
                      = inr (decimal ds * k)).
  { intros k. simpl. rewrite Hn, Hd. simpl. by rewrite Z.quot_1_r. }
  assert (Hspace : Forall (fun c => PyText.is_space c = false) ds)
    by (eapply Forall_impl; [exact Hds|]; apply digit_is_not_space).
  split.
  - intros _. unfold parse_retention_time.
    rewrite String.list_ascii_of_string_of_list_ascii.
    rewrite strip_no_space, lower_digits by done.
    rewrite retention_scan_digits by done.
    destruct ds as [|c ds]; [done|]. rewrite Hq.
    change (units "d") with (Some 86400). cbv beta iota. by rewrite Hval.
  - intros u k rest Hu _.
    destruct (units_not_numeric u k Hu) as (Hud & Hudot & Husp & Hul).
    unfold parse_retention_time.
    rewrite String.list_ascii_of_string_of_list_ascii.
    destruct ds as [|c ds]; [done|].
    apply Forall_cons in Hds as [Hc Hds]. apply Forall_cons in Hspace as [Hcs _].
    change ((c :: ds) ++ u :: rest) with (c :: ds ++ u :: rest).
    destruct (strip_head_kept c ds u rest Hcs Husp) as [rest' ->].
    change (c :: ds ++ u :: rest') with ((c :: ds) ++ u :: rest').
    unfold PyText.lower. rewrite map_app.
    change (map PyText.lower_char (u :: rest'))
      with (PyText.lower_char u :: map PyText.lower_char rest').
    rewrite Hul. fold (PyText.lower (c :: ds)).
    rewrite lower_digits by (by constructor).
    rewrite retention_scan_number by (done || by constructor).
    rewrite bool_decide_eq_true_2 by (by rewrite Hu).
    simpl app. rewrite Hq, Hu. cbv beta iota. by rewrite Hval.
Qed.

Lemma retention_number_and_unit_witness :
  parse_retention_time "36" = (36 * 86400, []) ∧
  parse_retention_time "90m then some" = (90 * 60, []).
Proof.
  destruct (retention_number_and_unit ["3"; "6"]%char) as [H1 _].
  { repeat constructor. } { done. }
  destruct (retention_number_and_unit ["9"; "0"]%char) as [_ H2].
  { repeat constructor. } { done. }
  split; [apply H1; by vm_compute|].
  apply (H2 "m"%char 60
           (String.list_ascii_of_string " then some") eq_refl).
  by vm_compute.
Defined.

(** ** Splitting the directory list *)

Lemma chars_append a b :
  String.list_ascii_of_string (String.append a b)
  = String.list_ascii_of_string a ++ String.list_ascii_of_string b.
Proof. induction a as [|c a IH]; simpl; [done|]. by rewrite IH. Qed.

Lemma split_chars_cons sep cs cur :
  ∃ x rest, PyText.split_chars sep cs cur = x :: rest.
Proof.
  revert cur. induction cs as [|c cs IH]; intros cur; simpl; [by eauto|].
  case_bool_decide; [by eauto|apply IH].
Qed.

Lemma join_split_chars sep cs cur :
  String.list_ascii_of_string (join sep (PyText.split_chars sep cs cur))
  = rev cur ++ cs.
Proof.
  revert cur. induction cs as [|c cs IH]; intros cur; simpl.
  - by rewrite String.list_ascii_of_string_of_list_ascii, app_nil_r.
  - case_bool_decide as Hsep.
    + subst c. destruct (split_chars_cons sep cs []) as (x & rest & Hx).
      specialize (IH []). rewrite Hx in IH |- *.
      change (join sep (?a :: x :: rest))
        with (String.append a (String sep (join sep (x :: rest)))).
      rewrite chars_append, String.list_ascii_of_string_of_list_ascii.
      simpl String.list_ascii_of_string. do 2 f_equal. exact IH.
    + rewrite IH. simpl. by rewrite <- app_assoc.
Qed.

Lemma split_chars_pieces sep cs cur :
  sep ∉ cur ->
  Forall (fun piece => ¬ has_char sep piece) (PyText.split_chars sep cs cur).
Proof.
  revert cur. induction cs as [|c cs IH]; intros cur Hcur; simpl.
  - constructor; [|constructor]. unfold has_char.
    rewrite String.list_ascii_of_string_of_list_ascii.
    intros H. apply Hcur. by apply list_elem_of_In, in_rev, list_elem_of_In in H.
  - case_bool_decide as Hsep.
    + constructor; [|apply IH, not_elem_of_nil]. unfold has_char.
      rewrite String.list_ascii_of_string_of_list_ascii.
      intros H. apply Hcur.
      by apply list_elem_of_In, in_rev, list_elem_of_In in H.
    + apply IH. by apply not_elem_of_cons.
Qed.

(** X3: [split] cuts a text at every separator and nowhere else:
    joining the pieces with the separator gives the text back, no piece
    holds the separator, and there is always at least one piece (the
    empty text gives one empty piece), so the list of watched
    directories is never empty. *)
Theorem split_join_round_trip (sep : ascii) (s : string) :
  join sep (PyText.split sep s) = s ∧
  Forall (fun piece => ¬ has_char sep piece) (PyText.split sep s) ∧
  PyText.split sep s ≠ [].
Proof.
  unfold PyText.split. split_and!.
  - rewrite <- (String.string_of_list_ascii_of_string
                 (join sep (PyText.split_chars sep _ []))).
    rewrite join_split_chars. simpl.
    apply String.string_of_list_ascii_of_string.
  - apply split_chars_pieces, not_elem_of_nil.
  - by destruct (split_chars_cons sep (String.list_ascii_of_string s) [])
      as (x & rest & ->).
Qed.

(** ** Printing a duration *)

(** X4: for a duration that is not negative, [_format_seconds] prints
    the whole number of the largest unit (day, hour, minute) that fits,
    rounded down, and plain seconds below a minute: the number printed
    is at least 1 from one minute on, and the duration lies between it
    and the next whole number of that unit. *)
Theorem format_seconds_rounds_down (seconds : Z) :
  0 <= seconds ->
  let '(n, u) := format_seconds seconds in
  n * unit_seconds u <= seconds < (n + 1) * unit_seconds u ∧
  (60 <= seconds -> 1 <= n) ∧
  (u = Seconds ∨ unit_seconds u <= seconds) ∧
  (∀ v, unit_seconds u < unit_seconds v -> seconds < unit_seconds v).
Proof.
  intros Hs. unfold format_seconds.
  repeat match goal with |- context [?a <=? ?b] =>
    destruct (Z.leb_spec a b) end; simpl.
  - pose proof (Z.div_mod seconds 86400 ltac:(lia)).
    pose proof (Z.mod_pos_bound seconds 86400 ltac:(lia)).
    split_and!; [lia|lia|nia|by right|intros []; simpl; lia].
  - pose proof (Z.div_mod seconds 3600 ltac:(lia)).
    pose proof (Z.mod_pos_bound seconds 3600 ltac:(lia)).
    split_and!; [lia|lia|nia|by right|intros []; simpl; lia].
  - pose proof (Z.div_mod seconds 60 ltac:(lia)).
    pose proof (Z.mod_pos_bound seconds 60 ltac:(lia)).
    split_and!; [lia|lia|nia|by right|intros []; simpl; lia].
  - split_and!; [lia|lia|lia|by left|intros []; simpl; lia].
Qed.

Lemma format_seconds_witness :
  format_seconds 259200 = (3, Days) ∧
  3 * 86400 <= 259200 < 4 * 86400.
Proof.
  split; [reflexivity|].
  pose proof (format_seconds_rounds_down 259200 ltac:(lia)) as H.
  simpl in H. destruct H as (H & _). exact H.
Defined.

(** ** What the policies leave alone *)

Lemma delete_files_lookup msg l s p :
  let fl' := fs_files (os (snd (delete_files msg l s))) in
  fl' !! p = fs_files (os s) !! p ∨ (fl' !! p = None ∧ p ∈ path <$> l).
Proof.
  revert s. induction l as [|g rest IH]; intros s; simpl; [by left|].
  run. destruct (unlink (path g) (os s)) as [w'|] eqn:Hu; simpl.
  - destruct (unlink_Some _ _ _ Hu) as (Hw & _ & _). subst w'.
    match goal with |- context [delete_files msg rest ?s1] =>
      specialize (IH s1); destruct (delete_files msg rest s1) as [n s2]
    end. simpl in *.
    destruct IH as [IH|[IH Hin]]; [|right; split; [done|by right]].
    rewrite IH. destruct (decide (p = path g)) as [->|Hne].
    + right. rewrite lookup_delete_eq. split; [done|by left].
    + left. by rewrite lookup_delete_ne.
  - match goal with |- context [delete_files msg rest ?s1] =>
      specialize (IH s1); destruct (delete_files msg rest s1) as [n s2]
    end. simpl in *.
    destruct IH as [IH|[IH Hin]]; [by left|right; split; [done|by right]].
Qed.

Lemma evict_frame msg directory victims keep s0 s files :
  os s = os s0 ->
  self s = set_logger (logger (self s)) (self s0) ->
  default [] (file_registry (self s0) !! directory) = files ->
  keep ⊆+ files -> victims ⊆+ files ->
  let s' := snd (evict msg directory victims keep s) in
  default [] (file_registry (self s') !! directory) ⊆+ files ∧
  (∀ d, d ≠ directory →
        file_registry (self s') !! d = file_registry (self s0) !! d) ∧
  config (self s') = config (self s0) ∧
  running (self s') = running (self s0) ∧
  last_heartbeat (self s') = last_heartbeat (self s0) ∧
  os s' = set_fs_files (fs_files (os s')) (os s0) ∧
  (∀ p, fs_files (os s') !! p = fs_files (os s0) !! p ∨
        (fs_files (os s') !! p = None ∧ p ∈ path <$> files)).
Proof.
  intros Hos Hself Hfiles Hkeep Hvict s'. subst s'. unfold evict. run.
  pose proof (delete_files_spec msg victims s) as Hs.
  pose proof (delete_files_lookup msg victims s) as Hl.
  destruct (delete_files msg victims s) as [n s1]. simpl in *.
  destruct Hs as (H1 & H2 & _). rewrite Hos in *.
  rewrite H2, Hself. simpl.
  split_and!; try done.
  - by rewrite lookup_insert_eq.
  - intros d Hd. by rewrite lookup_insert_ne.
  - intros p. destruct (Hl p) as [?|[? Hin]]; [by left|right].
    split; [done|].
    apply list_elem_of_fmap in Hin as (f & -> & Hf).
    apply list_elem_of_fmap. exists f. split; [done|].
    by eapply elem_of_submseteq.
Qed.

Lemma noop_frame s directory :
  let before := default [] (file_registry (self s) !! directory) in
  before ⊆+ before ∧
  (∀ d, d ≠ directory →
        file_registry (self s) !! d = file_registry (self s) !! d) ∧
  config (self s) = config (self s) ∧
  running (self s) = running (self s) ∧
  last_heartbeat (self s) = last_heartbeat (self s) ∧
  os s = set_fs_files (fs_files (os s)) (os s) ∧
  (∀ p, fs_files (os s) !! p = fs_files (os s) !! p ∨
        (fs_files (os s) !! p = None ∧ p ∈ path <$> before)).
Proof. split_and!; try done; [by destruct (os s)|by left]. Qed.

Lemma filter_submseteq {A} (P : A -> Prop) `{!∀ x, Decision (P x)}
    (l : list A) : filter P l ⊆+ l.
Proof. apply sublist_submseteq, sublist_filter. Qed.

Lemma drop_sort_submseteq k files : drop k (sort_by_mtime files) ⊆+ files.
Proof.
  rewrite <- (sort_by_mtime_perm files) at 2.
  apply sublist_submseteq, sublist_drop.
Qed.

Lemma take_sort_submseteq k files : take k (sort_by_mtime files) ⊆+ files.
Proof.
  rewrite <- (sort_by_mtime_perm files) at 2.
  apply sublist_submseteq, sublist_take.
Qed.

Lemma cleanup_by_time_frame : policy_frame cleanup_by_time.
Proof.
  intros s directory. rewrite cleanup_by_time_eq. simpl.
  apply evict_frame; try apply filter_submseteq; try done;
    destruct (filter _ _); simpl; try done; by destruct s as [w []].
Qed.

Lemma cleanup_by_count_frame : policy_frame cleanup_by_count.
Proof.
  intros s directory. rewrite cleanup_by_count_eq. simpl.
  destruct (_ <=? _); [apply noop_frame|].
  apply evict_frame; try done;
    [apply drop_sort_submseteq|apply take_sort_submseteq].
Qed.

Lemma cleanup_by_size_frame : policy_frame cleanup_by_size.
Proof.
  intros s directory. rewrite cleanup_by_size_eq. simpl.
  destruct (_ <=? _); [apply noop_frame|].
  apply evict_frame; try done; [apply drop_sort_submseteq|].
  rewrite size_victims_prefix. apply take_sort_submseteq.
Qed.


(** ** What each policy establishes *)

Lemma cleanup_by_time_post directory s f :
  f ∈ tracked (snd (cleanup_by_time directory s)) directory ->
  clock (os s) - retention_seconds (config (self s)) <= mtime f.
Proof.
  unfold tracked.
  destruct (cleanup_by_time_outcome directory s) as (H1 & _).
  rewrite H1. simpl. rewrite lookup_insert_eq. simpl.
  by intros [? _]%list_elem_of_filter.
Qed.

Lemma cleanup_by_count_post directory s :
  0 <= max_files_per_dir (config (self s)) ->
  Z.of_nat (length (tracked (snd (cleanup_by_count directory s)) directory))
  <= max_files_per_dir (config (self s)).
Proof.
  intros HC. unfold tracked.
  destruct (Z.leb_spec
              (Z.of_nat (length (default [] (file_registry (self s)
                                               !! directory))))
              (max_files_per_dir (config (self s)))) as [Hle|Hgt].
  - rewrite cleanup_by_count_eq. simpl.
    by rewrite (proj2 (Z.leb_le _ _)).
  - destruct (cleanup_by_count_outcome directory s Hgt) as (H1 & _).
    rewrite H1. simpl. rewrite lookup_insert_eq. simpl.
    rewrite length_drop, sort_by_mtime_length. lia.
Qed.

Lemma cleanup_by_size_post directory s :
  0 <= max_disk_size_bytes (config (self s)) ->
  total_size (tracked (snd (cleanup_by_size directory s)) directory)
  <= max_disk_size_bytes (config (self s)).
Proof.
  intros HM. unfold tracked.
  destruct (Z.leb_spec
              (total_size (default [] (file_registry (self s) !! directory)))
              (max_disk_size_bytes (config (self s)))) as [Hle|Hgt].
  - rewrite cleanup_by_size_eq. simpl.
    by rewrite (proj2 (Z.leb_le _ _)).
  - destruct (cleanup_by_size_outcome directory s Hgt) as (H1 & _).
    rewrite H1. simpl. rewrite lookup_insert_eq. simpl.
    rewrite <- (total_size_perm _ _ (sort_by_mtime_perm
      (default [] (file_registry (self s) !! directory)))).
    by apply size_victims_rest.
Qed.

(** X6: with caps that are not negative, the count-cap pass and the
    size-cap pass are idempotent: run again on the state it left, each
    returns 0 and changes nothing, neither Registry, disk nor log. *)
Theorem cap_passes_idempotent (s : St) (directory : string) :
  (0 <= max_files_per_dir (config (self s)) ->
   let s1 := snd (cleanup_by_count directory s) in
   cleanup_by_count directory s1 = (0%nat, s1)) ∧
  (0 <= max_disk_size_bytes (config (self s)) ->
   let s1 := snd (cleanup_by_size directory s) in
   cleanup_by_size directory s1 = (0%nat, s1)).
Proof.
  split; intros Hcap s1.
  - pose proof (cleanup_by_count_post directory s Hcap) as Hpost.
    destruct (cleanup_by_count_frame s directory) as (_ & _ & Hcfg & _).
    fold s1 in Hpost, Hcfg. unfold tracked in Hpost.
    rewrite cleanup_by_count_eq. simpl. rewrite Hcfg.
    by rewrite (proj2 (Z.leb_le _ _)).
  - pose proof (cleanup_by_size_post directory s Hcap) as Hpost.
    destruct (cleanup_by_size_frame s directory) as (_ & _ & Hcfg & _).
    fold s1 in Hpost, Hcfg. unfold tracked in Hpost.
    rewrite cleanup_by_size_eq. simpl. rewrite Hcfg.
    by rewrite (proj2 (Z.leb_le _ _)).
Qed.

Lemma cap_passes_idempotent_witness :
  let s1 := snd (cleanup_by_count "/var/log" (five_files ∅)) in
  let s2 := snd (cleanup_by_size "/var/log" (five_files ∅)) in
  cleanup_by_count "/var/log" s1 = (0%nat, s1) ∧
  cleanup_by_size "/var/log" s2 = (0%nat, s2).
Proof.
  split.
  - apply (proj1 (cap_passes_idempotent (five_files ∅) "/var/log")).
    simpl. lia.
  - apply (proj2 (cap_passes_idempotent (five_files ∅) "/var/log")).
    simpl. lia.
Defined.

Lemma size_victims_all l c m :
  Forall (fun f => 0 <= size f) l -> m < c - total_size l ->
  size_victims l c m = l.
Proof.
  intros Hl. revert c. induction Hl as [|f l Hf Hl IH]; intros c Hc; [done|].
  simpl. rewrite total_size_cons in Hc.
  assert (0 <= total_size l).
  { clear -Hl. induction Hl as [|g l Hg _ IH]; [done|].
    rewrite total_size_cons. lia. }
  rewrite (proj2 (Z.leb_gt _ _)) by lia. f_equal. apply IH. lia.
Qed.

(** X7: a negative cap evicts everything.  With a negative file-count
    cap the count-cap pass leaves the directory's entry empty (and
    creates an empty entry for a directory not tracked yet); with a
    negative size cap, and no record of negative size, so does the
    size-cap pass. *)
Theorem negative_cap_empties_entry (s : St) (directory : string) :
  (max_files_per_dir (config (self s)) < 0 ->
   file_registry (self (snd (cleanup_by_count directory s))) !! directory
   = Some []) ∧
  (max_disk_size_bytes (config (self s)) < 0 ->
   Forall (fun f => 0 <= size f) (tracked s directory) ->
   file_registry (self (snd (cleanup_by_size directory s))) !! directory
   = Some []).
Proof.
  split.
  - intros Hneg.
    destruct (cleanup_by_count_outcome directory s) as (H1 & _); [lia|].
    rewrite H1. simpl. rewrite lookup_insert_eq. f_equal.
    apply drop_ge. rewrite sort_by_mtime_length. lia.
  - intros Hneg Hsz. unfold tracked in Hsz.
    set (files := default [] (file_registry (self s) !! directory)) in *.
    assert (0 <= total_size files).
    { clear -Hsz. induction Hsz as [|g l Hg _ IH]; [done|].
      rewrite total_size_cons. lia. }
    destruct (cleanup_by_size_outcome directory s) as (H1 & _);
      [fold files; lia|].
    fold files in H1. rewrite H1. simpl. rewrite lookup_insert_eq. f_equal.
    rewrite size_victims_all.
    + apply drop_ge. lia.
    + rewrite (sort_by_mtime_perm files). done.
    + rewrite (total_size_perm _ _ (sort_by_mtime_perm files)). lia.
Qed.

Lemma negative_cap_witness :
  file_registry
    (self (snd (cleanup_by_count "/var/log"
                  (mkSt (os (three_files ∅))
                        (sample_daemon (sample_config (-1) 100)
                           [rec_10d; rec_2d; rec_1h])))))
  !! "/var/log"%string = Some [].
Proof.
  apply (proj1 (negative_cap_empties_entry _ "/var/log")). simpl. lia.
Defined.

(** ** A whole cycle *)

Lemma scan_directory_frame directory s :
  let s' := snd (scan_directory directory s) in
  os s' = os s ∧
  config (self s') = config (self s) ∧
  running (self s') = running (self s) ∧
  last_heartbeat (self s') = last_heartbeat (self s) ∧
  ∀ d, d ≠ directory →
       file_registry (self s') !! d = file_registry (self s) !! d.
Proof.
  unfold scan_directory. run.
  case_bool_decide; [done|]. case_bool_decide; simpl.
  { split_and!; try done. intros d Hd. by rewrite lookup_insert_ne. }
  case_bool_decide; [|done].
  pose proof (scan_entries_spec (Path directory)
                (map_to_list (fs_files (os s))) s) as (Hos & Hself & _).
  destruct (scan_entries _ _ s) as [[l|] s1]; simpl in *;
    rewrite Hself; simpl; split_and!; try done.
  intros d Hd. by rewrite lookup_insert_ne.
Qed.

Lemma is_cpu_busy_frame s :
  os (snd (is_cpu_busy s)) = os s ∧
  self (snd (is_cpu_busy s))
  = set_logger (logger (self (snd (is_cpu_busy s)))) (self s).
Proof.
  unfold is_cpu_busy. run.
  destruct (cpu_percent (os s)); simpl; by destruct s as [w []].
Qed.

Lemma within_limits_submseteq cfg cutoff l k :
  k ⊆+ l -> (∀ f, f ∈ l → cutoff <= mtime f) ->
  Z.of_nat (length l) <= max_files_per_dir cfg ->
  total_size k <= max_disk_size_bytes cfg ->
  within_limits cfg cutoff k.
Proof.
  intros Hsub Hage Hlen Hsize. split_and!; [|
    apply submseteq_length in Hsub; lia|done].
  intros f Hf. apply Hage. by eapply elem_of_submseteq.
Qed.

(** One turn of the loop of [_perform_cleanup]: scan, then the three
    policies in order. *)
Lemma directory_turn directory s :
  let s0 := snd (scan_directory directory s) in
  let s1 := snd (cleanup_by_time directory s0) in
  let s2 := snd (cleanup_by_count directory s1) in
  let s3 := snd (cleanup_by_size directory s2) in
  config (self s3) = config (self s) ∧
  clock (os s3) = clock (os s) ∧
  (∀ d, d ≠ directory →
        file_registry (self s3) !! d = file_registry (self s) !! d) ∧
  (0 <= max_files_per_dir (config (self s)) ->
   0 <= max_disk_size_bytes (config (self s)) ->
   within_limits (config (self s))
     (clock (os s) - retention_seconds (config (self s)))
     (tracked s3 directory)).
Proof.
  intros s0 s1 s2 s3.
  destruct (scan_directory_frame directory s) as (Ho0 & Hc0 & _ & _ & Hd0).
  destruct (cleanup_by_time_frame s0 directory) as (_ & Hd1 & Hc1 & _).
  destruct (cleanup_by_count_frame s1 directory) as (Hs2 & Hd2 & Hc2 & _).
  destruct (cleanup_by_size_frame s2 directory) as (Hs3 & Hd3 & Hc3 & _).
  pose proof (cleanup_by_time_clock directory s0) as Hk1.
  pose proof (cleanup_by_count_clock directory s1) as Hk2.
  pose proof (cleanup_by_size_clock directory s2) as Hk3.
  fold s0 in Ho0, Hc0, Hd0. fold s1 in Hd1, Hc1, Hk1, Hs2.
  fold s2 in Hs2, Hd2, Hc2, Hk2, Hs3. fold s3 in Hs3, Hd3, Hc3, Hk3.
  assert (Hcfg2 : config (self s2) = config (self s)) by congruence.
  assert (Hcfg1 : config (self s1) = config (self s)) by congruence.
  split_and!.
  - congruence.
  - rewrite Hk3, Hk2, Hk1. by rewrite Ho0.
  - intros d Hd. by rewrite Hd3, Hd2, Hd1, Hd0.
  - intros HC HM.
    pose proof (fun f => cleanup_by_time_post directory s0 f) as Hage.
    pose proof (cleanup_by_count_post directory s1) as Hcount.
    pose proof (cleanup_by_size_post directory s2) as Hsize.
    fold s1 in Hage. fold s2 in Hcount. fold s3 in Hsize.
    rewrite Hcfg1 in Hcount. rewrite Hcfg2 in Hsize.
    rewrite Ho0, Hc0 in Hage.
    apply (within_limits_submseteq _ _ (tracked s2 directory)); auto.
    intros f Hf. apply Hage. by eapply elem_of_submseteq.
Qed.

Lemma cleanup_directories_cons d0 rest s :
  let s0 := snd (scan_directory d0 s) in
  let r1 := cleanup_by_time d0 s0 in
  let r2 := cleanup_by_count d0 (snd r1) in
  let r3 := cleanup_by_size d0 (snd r2) in
  cleanup_directories (d0 :: rest) s
  = cleanup_directories rest
      (snd (log INFO (MsgDirDone d0 (fst r1) (fst r2) (fst r3)) (snd r3))).
Proof.
  cbv zeta. cbn [cleanup_directories]. unfold bind.
  destruct (scan_directory d0 s) as [[] s0]. cbn [fst snd].
  destruct (cleanup_by_time d0 s0) as [n1 s1]. cbn [fst snd].
  destruct (cleanup_by_count d0 s1) as [n2 s2]. cbn [fst snd].
  destruct (cleanup_by_size d0 s2) as [n3 s3]. cbn [fst snd].
  unfold log. reflexivity.
Qed.

Lemma cleanup_directories_limits dirs s :
  let s' := snd (cleanup_directories dirs s) in
  config (self s') = config (self s) ∧
  (∀ d, d ∉ dirs →
        file_registry (self s') !! d = file_registry (self s) !! d) ∧
  (0 <= max_files_per_dir (config (self s)) ->
   0 <= max_disk_size_bytes (config (self s)) ->
   ∀ d, d ∈ dirs →
     within_limits (config (self s))
       (clock (os s) - retention_seconds (config (self s)))
       (tracked s' d)).
Proof.
  revert s. induction dirs as [|d0 rest IH]; intros s.
  { simpl. split_and!; try done. intros _ _ d Hd. by apply elem_of_nil in Hd. }
  destruct (directory_turn d0 s) as (Hcfg & Hclk & Hother & Hlim).
  rewrite cleanup_directories_cons. cbv zeta.
  set (s3 := snd (cleanup_by_size d0 _)) in *.
  match goal with |- context [cleanup_directories rest ?x] =>
    set (s4 := x) in *; specialize (IH s4) end.
  cbv zeta in IH. destruct IH as (IHc & IHo & IHl).
  assert (H4c : config (self s4) = config (self s3)) by done.
  assert (H4k : clock (os s4) = clock (os s3)) by done.
  assert (H4r : file_registry (self s4) = file_registry (self s3)) by done.
  rewrite H4c in IHc, IHl. rewrite H4k in IHl. rewrite H4r in IHo.
  rewrite Hcfg, Hclk in IHl.
  split_and!.
  - congruence.
  - intros d [Hne Hd]%not_elem_of_cons. by rewrite IHo, Hother.
  - intros HC HM d Hd.
    destruct (decide (d ∈ rest)) as [Hin|Hnin]; [by apply IHl|].
    apply elem_of_cons in Hd as [->|?]; [|done].
    unfold tracked. rewrite IHo by done. by apply Hlim.
Qed.

(** The cycle that is not skipped, as one composition. *)
Lemma perform_cleanup_unskipped s :
  fst (is_cpu_busy s) = false ->
  let s0 := snd (log INFO MsgScanStart (snd (is_cpu_busy s))) in
  let s1 := snd (cleanup_directories (directories (config (self s0))) s0) in
  let s2 := snd (save_state s1) in
  perform_cleanup s = (tt, snd (set_last_heartbeat (clock (os s2)) s2)) ∧
  os s0 = os s ∧ config (self s0) = config (self s) ∧
  file_registry (self s0) = file_registry (self s).
Proof.
  intros Hbusy. destruct (is_cpu_busy_frame s) as [Hos Hself].
  cbv zeta. split.
  - unfold perform_cleanup. unfold bind at 1.
    destruct (is_cpu_busy s) as [b sb]. cbn [fst snd] in *. subst b.
    unfold bind at 1. unfold log at 1 3. cbn [fst snd].
    unfold bind at 1. unfold get_self at 1. cbn [fst snd].
    unfold bind at 1.
    destruct (cleanup_directories _ _) as [[] s1]. cbn [fst snd].
    unfold bind at 1. destruct (save_state s1) as [[] s2]. cbn [fst snd].
    reflexivity.
  - unfold log. cbn [fst snd os self]. rewrite Hself. by rewrite Hos.
Qed.

Lemma set_fs_files_twice fl w0 w :
  w = set_fs_files (fs_files w) w0 -> 
  set_fs_files fl w = set_fs_files fl w0.
Proof. intros ->. done. Qed.

(** A pass over directories changes nothing in the world but the file
    table. *)
Lemma cleanup_directories_world dirs s :
  let s' := snd (cleanup_directories dirs s) in
  os s' = set_fs_files (fs_files (os s')) (os s) ∧
  running (self s') = running (self s) ∧
  last_heartbeat (self s') = last_heartbeat (self s).
Proof.
  revert s. induction dirs as [|d0 rest IH]; intros s.
  { simpl. by destruct (os s). }
  rewrite cleanup_directories_cons. cbv zeta.
  destruct (scan_directory_frame d0 s) as (Ho0 & _ & Hr0 & Hh0 & _).
  set (s0 := snd (scan_directory d0 s)) in *.
  destruct (cleanup_by_time_frame s0 d0) as (_ & _ & _ & Hr1 & Hh1 & Ho1 & _).
  set (s1 := snd (cleanup_by_time d0 s0)) in *.
  destruct (cleanup_by_count_frame s1 d0) as (_ & _ & _ & Hr2 & Hh2 & Ho2 & _).
  set (s2 := snd (cleanup_by_count d0 s1)) in *.
  destruct (cleanup_by_size_frame s2 d0) as (_ & _ & _ & Hr3 & Hh3 & Ho3 & _).
  set (s3 := snd (cleanup_by_size d0 s2)) in *.
  match goal with |- context [cleanup_directories rest ?x] =>
    set (s4 := x) in *; specialize (IH s4) end.
  cbv zeta in IH. destruct IH as (IHo & IHr & IHh).
  assert (H4o : os s4 = os s3) by done.
  assert (H4r : running (self s4) = running (self s3)) by done.
  assert (H4h : last_heartbeat (self s4) = last_heartbeat (self s3)) by done.
  split_and!; [|congruence|congruence].
  rewrite IHo at 1. rewrite H4o.
  rewrite (set_fs_files_twice _ _ _ Ho3), (set_fs_files_twice _ _ _ Ho2),
    (set_fs_files_twice _ _ _ Ho1). by rewrite Ho0.
Qed.

Lemma busy_cycle_registry s :
  fst (is_cpu_busy s) = true ->
  file_registry (self (snd (perform_cleanup s))) = file_registry (self s) ∧
  config (self (snd (perform_cleanup s))) = config (self s) ∧
  running (self (snd (perform_cleanup s))) = running (self s).
Proof.
  intros Hbusy. destruct (is_cpu_busy_frame s) as [Hos Hself].
  assert (Heq : perform_cleanup s
                = (tt, snd (log INFO MsgCpuBusySkip (snd (is_cpu_busy s))))).
  { unfold perform_cleanup. unfold bind at 1.
    destruct (is_cpu_busy s) as [b sb]. cbn [fst snd] in *. by subst b. }
  rewrite Heq. unfold log. cbn [fst snd self]. rewrite Hself. done.
Qed.

(** What every cycle that is not skipped does. *)
Lemma unskipped_cycle_effects s :
  fst (is_cpu_busy s) = false ->
  let s' := snd (perform_cleanup s) in
  config (self s') = config (self s) ∧
  running (self s') = running (self s) ∧
  last_heartbeat (self s') = clock (os s) ∧
  (∀ d, d ∉ directories (config (self s)) →
        file_registry (self s') !! d = file_registry (self s) !! d) ∧
  (0 <= max_files_per_dir (config (self s)) ->
   0 <= max_disk_size_bytes (config (self s)) ->
   ∀ d, d ∈ directories (config (self s)) →
     within_limits (config (self s))
       (clock (os s) - retention_seconds (config (self s)))
       (tracked s' d)) ∧
  os s' = set_state_store (state_store (os s'))
            (set_fs_files (fs_files (os s')) (os s)) ∧
  (if store_ok (os s)
   then state_store (os s')
        = Some (Some (encode_registry (file_registry (self s'))))
   else (ERROR, MsgSaveFailed) ∈ logger (self s') ∧
        state_store (os s')
        = if open_ok (os s) then Some None else state_store (os s)).
Proof.
  intros Hbusy.
  destruct (perform_cleanup_unskipped s Hbusy) as (Heq & Hos0 & Hcfg0 & Hreg0).
  cbv zeta in Heq, Hos0, Hcfg0, Hreg0 |- *. rewrite Heq. clear Heq.
  set (s0 := snd (log INFO MsgScanStart (snd (is_cpu_busy s)))) in *.
  destruct (cleanup_directories_limits (directories (config (self s0))) s0)
    as (Hcfg1 & Hoth1 & Hlim1).
  destruct (cleanup_directories_world (directories (config (self s0))) s0)
    as (Hos1 & Hrun1 & _).
  assert (Hrun0 : running (self s0) = running (self s)).
  { subst s0. unfold log. cbn [snd self].
    destruct (is_cpu_busy_frame s) as [_ ->]. done. }
  set (s1 := snd (cleanup_directories _ s0)) in *.
  rewrite Hcfg0, Hos0 in *. rewrite Hreg0 in Hoth1.
  assert (Hok : store_ok (os s1) = store_ok (os s)) by (by rewrite Hos1).
  assert (Hopen : open_ok (os s1) = open_ok (os s)) by (by rewrite Hos1).
  assert (Hclk : clock (os s1) = clock (os s)) by (by rewrite Hos1).
  unfold save_state. unfold bind, get_os, get_self, put_os, log.
  cbn [fst snd]. rewrite Hok, Hopen.
  destruct (store_ok (os s)), (open_ok (os s));
    cbn [fst snd os self set_last_heartbeat clock
    set_state_store set_logger config running last_heartbeat file_registry
    state_store fs_files logger];
    split_and!; try done; try congruence;
      try (by apply Hlim1); try (by rewrite Hos1);
      try (apply elem_of_app; right; apply list_elem_of_here).
Qed.



(** X9: no cycle, skipped or not, touches the Registry entry of a
    directory that is not configured (such entries come from a restored
    state file), and none changes the configuration or the running
    flag. *)
Theorem cycle_touches_only_configured_directories (s : St) (d : string) :
  d ∉ directories (config (self s)) ->
  let s' := snd (perform_cleanup s) in
  file_registry (self s') !! d = file_registry (self s) !! d ∧
  config (self s') = config (self s) ∧
  running (self s') = running (self s).
Proof.
  intros Hd. cbv zeta. destruct (fst (is_cpu_busy s)) eqn:Hbusy.
  - destruct (busy_cycle_registry s Hbusy) as (-> & -> & ->). done.
  - destruct (unskipped_cycle_effects s Hbusy) as (Hc & Hr & _ & Ho & _).
    split_and!; [by apply Ho|done|done].
Qed.

Lemma cycle_other_directory_witness :
  file_registry (self (snd (perform_cleanup (five_files ∅))))
  !! "/srv/other"%string
  = file_registry (self (five_files ∅)) !! "/srv/other"%string.
Proof.
  apply (cycle_touches_only_configured_directories (five_files ∅)
           "/srv/other").
  simpl. intros H. apply list_elem_of_singleton in H. discriminate.
Defined.





(** ** Scanning, then the age policy *)

Lemma strip_prefix_Some pre s r :
  strip_prefix pre s = Some r -> s = String.append pre r.
Proof.
  revert s. induction pre as [|a pre IH]; intros [|b s]; simpl; try done.
  - by intros [= <-].
  - by intros [= <-].
  - case_bool_decide; [|done]. subst b. intros H. by rewrite (IH _ H).
Qed.

Lemma relative_to_Some dir_path p rel :
  relative_to dir_path p = Some rel ->
  p = String.append (child_prefix dir_path) rel ∧ rel ≠ EmptyString.
Proof.
  unfold relative_to.
  destruct (strip_prefix _ p) as [r|] eqn:H; [|done].
  destruct (is_child_text r) eqn:Hr; [|done]. intros [= <-].
  apply strip_prefix_Some in H. split; [done|].
  unfold is_child_text in Hr. apply bool_decide_eq_true in Hr.
  by destruct Hr.
Qed.

(** The entry a successful scan stores. *)
Lemma scan_directory_snapshot directory s :
  walk_completes (os s) directory ->
  tracked (snd (scan_directory directory s)) directory
  = omap (scan_record (Path directory) (os s))
         (map_to_list (fs_files (os s))).
Proof.
  intros [Hdir Hwalk]. unfold tracked, scan_directory. run.
  rewrite bool_decide_eq_false_2 by (by intros [? _]).
  rewrite bool_decide_eq_false_2 by (by intros ?).
  assert (Hwd : walked_dirs (os s) (Path directory) ## fs_unwalkable (os s)).
  { intros p Hp. apply Hwalk. unfold walked. by apply elem_of_union_l. }
  rewrite bool_decide_eq_true_2 by done.
  pose proof (scan_entries_spec (Path directory)
                (map_to_list (fs_files (os s))) s) as (_ & _ & H3).
  pose proof (walked_files_ok (os s) (Path directory) Hwd) as Hiff.
  destruct (scan_entries _ _ s) as [found s1]. simpl in *.
  destruct (decide _) as [Hall|Hall]; subst found; simpl.
  - by rewrite lookup_insert_eq.
  - destruct Hall. by apply Hiff.
Qed.





(** X13: every record the scan of a directory whose walk raises nowhere
    stores describes a file of the file table as it is.  Its path is
    what [Path(directory)] prints in front of a child (the directory and
    a separator; a root alone; nothing for the current directory)
    followed by a relative path that is not empty; its size and
    modification time are those of the file; and no two records of the
    entry share a path. *)
Theorem scanned_records_describe_files (s : St) (directory : string) :
  walk_completes (os s) directory ->
  let entry := tracked (snd (scan_directory directory s)) directory in
  NoDup (path <$> entry) ∧
  ∀ f, f ∈ entry →
    path f = String.append (child_prefix (Path directory)) (relative_path f) ∧
    relative_path f ≠ EmptyString ∧
    fs_files (os s) !! path f = Some (mkStat (size f) (mtime f)).
Proof.
  intros Hwalk entry. subst entry.
  rewrite (scan_directory_snapshot directory s Hwalk). split.
  - pose proof (NoDup_fst_map_to_list (fs_files (os s))) as Hnd.
    induction (map_to_list (fs_files (os s))) as [|e rest IH]; simpl;
      [constructor|].
    simpl in Hnd. apply NoDup_cons in Hnd as [He Hnd].
    destruct (scan_record (Path directory) (os s) e) as [f|] eqn:Hf;
      [|by apply IH].
    simpl. constructor; [|by apply IH].
    intros Hin. apply list_elem_of_fmap in Hin as (g & Hg & Hin).
    apply list_elem_of_omap in Hin as (e' & He' & Hg').
    apply scan_record_path in Hf, Hg'. apply He.
    apply list_elem_of_fmap. exists e'. split; [congruence|done].
  - intros f Hf. apply scan_records_elem in Hf
      as (stat & Hst & _ & Hrel & Hsz & Hmt).
    apply relative_to_Some in Hrel as [Hpath Hne].
    split_and!; [done|done|]. rewrite Hst. destruct stat. simpl in *. by subst.
Qed.

Lemma scanned_records_witness :
  NoDup (path <$> tracked (snd (scan_directory "/var/log/" (five_files ∅)))
                    "/var/log/").
Proof.
  apply (scanned_records_describe_files (five_files ∅) "/var/log/").
  split; apply (bool_decide_unpack _); by vm_compute.
Defined.

(** ** Restoring the state file *)


Lemma load_entries_app (good : list (string * list FileInfo)) tail s :
  load_entries (map encode_entry good ++ tail) s
  = load_entries tail (snd (load_entries (map encode_entry good) s)).
Proof.
  revert s. induction good as [|[d files] good IH]; intros s; [done|].
  cbn [map app].
  change (encode_entry (d, files)) with (d, JArr (map encode_file files)).
  cbn [load_entries]. rewrite decode_encode_files.
  unfold bind. destruct (registry_store d files s) as [[] s1].
  by rewrite IH.
Qed.

Lemma foldl_insert_list_to_map (l : list (string * list FileInfo)) :
  NoDup (l.*1) ->
  foldl (fun m e => <[fst e := snd e]> m)
        (∅ : gmap string (list FileInfo)) l
  = list_to_map l.
Proof.
  intros Hnd.
  rewrite <- (list_to_map_proper (reverse l) l).
  - rewrite <- (reverse_involutive l) at 1.
    generalize (reverse l). intros k.
    induction k as [|[d v] k IH]; [done|].
    rewrite reverse_cons, foldl_app. simpl. by rewrite IH.
  - by rewrite fmap_reverse, reverse_Permutation.
  - apply reverse_Permutation.
Qed.

Lemma item_raises_decode fd : item_raises fd = true -> decode_file fd = None.
Proof.
  destruct fd as [| | | | | |members]; try done. simpl.
  intros H. apply negb_true_iff, bool_decide_eq_false in H.
  destruct (dict_get "path" _) as [[]|]; try done;
    destruct (dict_get "size" _) as [[]|]; try done;
    destruct (dict_get "mtime" _) as [[]|]; try done;
    destruct (dict_get "relative_path" _) as [[]|]; try done;
    destruct H; by split_and!.
Qed.

Lemma files_data_raises_decode files_data :
  files_data_raises files_data = true -> decode_files files_data = None.
Proof.
  destruct files_data as [| | | |x|items|members]; try done; simpl.
  - by destruct x.
  - induction items as [|fd items IH]; [done|]. simpl.
    intros [H|H]%orb_true_iff.
    + by rewrite (item_raises_decode fd H).
    + change (mapM decode_file (fd :: items))
        with (y ← decode_file fd; k ← mapM decode_file items; mret (y :: k)).
      rewrite (IH H). by destruct (decode_file fd).
  - by destruct members.
Qed.

(** X14: restoring stops at the first entry on which the source raises.
    When the state file lists some entries written by [_save_state] and
    then one whose value is not a list of objects that have the four
    keys, the entries before it have been restored when the failure is
    caught, those after it are not, and the only trace is a warning: the
    load does not start from an empty Registry. *)
Theorem load_stops_at_malformed_entry (w : World) (d0 : Daemon)
    (good : list (string * list FileInfo)) (bad_dir : string) (bad : Json)
    (rest : list (string * Json)) :
  state_store w
  = Some (Some (JObj (map encode_entry good ++ (bad_dir, bad) :: rest))) ->
  NoDup ((map encode_entry good ++ (bad_dir, bad) :: rest).*1) ->
  files_data_raises bad = true ->
  file_registry d0 = ∅ ->
  let s' := snd (load_state_file (mkSt w d0)) in
  file_registry (self s') = list_to_map good ∧
  logger (self s') = logger d0 ++ [(WARNING, MsgLoadFailed)] ∧
  os s' = w.
Proof.
  intros Hstore Hnd Hbad%files_data_raises_decode Hempty. cbv zeta.
  assert (Heq : load_state_file (mkSt w d0)
    = (tt, mkSt w (set_logger (logger d0 ++ [(WARNING, MsgLoadFailed)])
                     (set_file_registry
                        (foldl (fun r e => <[fst e := snd e]> r)
                               (file_registry d0) good) d0)))).
  { unfold load_state_file. unfold bind at 1. unfold get_os at 1.
    cbn [fst snd os]. rewrite Hstore. rewrite (py_dict_NoDup _ Hnd).
    unfold bind at 1. rewrite load_entries_app, load_entries_encoded.
    cbn [snd load_entries]. rewrite Hbad. done. }
  rewrite Heq. cbn [snd os self file_registry logger set_logger
                    set_file_registry].
  rewrite Hempty, foldl_insert_list_to_map; [done|].
  rewrite fmap_app in Hnd. apply NoDup_app in Hnd as (Hnd & _).
  by rewrite encode_entry_keys in Hnd.
Qed.

Lemma load_stops_witness :
  file_registry
    (self (snd (load_state_file
      (mkSt (mkWorld ∅ ∅ ∅ ∅ ∅
               (Some (Some (JObj [("/a", JArr [encode_file rec_1h]);
                                  ("/b", JInt 7);
                                  ("/c", JArr [encode_file rec_2d])]%string)))
               true true day100 None)
            (mkDaemon (sample_config 3 100) ∅ true 0 [])))))
  = {["/a"%string := [rec_1h]]}.
Proof.
  destruct (load_stops_at_malformed_entry
    (mkWorld ∅ ∅ ∅ ∅ ∅
       (Some (Some (JObj [("/a", JArr [encode_file rec_1h]);
                          ("/b", JInt 7);
                          ("/c", JArr [encode_file rec_2d])]%string)))
       true true day100 None)
    (mkDaemon (sample_config 3 100) ∅ true 0 [])
    [("/a"%string, [rec_1h])] "/b" (JInt 7)
    [("/c"%string, JArr [encode_file rec_2d])]) as (H & _).
  - reflexivity.
  - simpl. repeat constructor; set_solver.
  - reflexivity.
  - reflexivity.
  - rewrite H. simpl. by rewrite insert_empty.
Defined.







(** ** Threads *)

Lemma perform_cleanup_running x :
  running (self (snd (perform_cleanup x))) = running (self x).
Proof.
  destruct (fst (is_cpu_busy x)) eqn:Hbusy.
  - by destruct (busy_cycle_registry x Hbusy) as (_ & _ & ->).
  - by destruct (unskipped_cycle_effects x Hbusy) as (_ & -> & _).
Qed.

(** ** C4: the heartbeat supervisor *)

(** Nothing but [start] and [_stop_cleanup_thread] writes
    [self.running]; once it is cleared, no step sets it again, and no
    step begins a cleanup cycle. *)
Lemma step_stopped s l s' :
  step s l s' -> running (self (st s)) = false ->
  running (self (st s')) = false ∧ ∀ i, l ≠ LCycle i.
Proof.
  intros Hstep Hr. destruct Hstep as [s i s' H|s i s' H|s s' H|s w|s i].
  - unfold worker_step in H. rewrite Hr in H.
    destruct (workers s !! i) as [[| |[|k]|]|]; simplify_eq.
  - split; [|done]. unfold worker_step in H. rewrite Hr in H.
    destruct (workers s !! i) as [[| |[|k]|]|]; simplify_eq; try done.
    simpl. by rewrite perform_cleanup_running.
  - split; [|done]. unfold supervisor_step in H. rewrite Hr in H.
    destruct (supervisor s); simplify_eq; simpl; try done.
    by destruct (worker_alive s).
  - done.
  - done.
Qed.

Lemma steps_stopped s tr s' :
  steps s tr s' -> running (self (st s)) = false ->
  running (self (st s')) = false ∧ Forall (fun l => ∀ i, l ≠ LCycle i) tr.
Proof.
  induction 1 as [s|s l s' tr s'' Hstep Hsteps IH]; intros Hr.
  - by split.
  - destruct (step_stopped _ _ _ Hstep Hr) as [Hr' Hl].
    destruct (IH Hr') as [Hr'' Htr]. split; [done|by constructor].
Qed.

(** The sibling branch: a worker that is not running is replaced by
    one that does run cleanup cycles. *)
Lemma dead_worker_is_replaced (s : Sys) :
  supervisor s = SupHead -> running (self (st s)) = true ->
  worker_alive s = false ->
  ∃ s1, supervisor_step s = Some s1 ∧
        worker_alive s1 = true ∧
        running (self (st s1)) = true ∧
        ∃ i s2, cleanup_thread s1 = Some i ∧ step s1 (LCycle i) s2.
Proof.
  intros Hsup Hr Hdead. unfold supervisor_step. rewrite Hsup, Hr, Hdead.
  simpl. eexists. split; [done|].
  assert (Hnew : ∀ (l : list WorkerPc), (l ++ [LoopHead]) !! length l
                                         = Some LoopHead).
  { intros l. by rewrite lookup_app_r, Nat.sub_diag by lia. }
  split_and!.
  - unfold worker_alive. simpl. by rewrite Hnew.
  - done.
  - eexists _, _. split; [done|]. apply Step_cycle.
    unfold worker_step. simpl. by rewrite Hnew, Hr.
Qed.

(** C4, on the code: on a worker that is alive with a heartbeat older
    than the timeout, the supervisor's stop request clears
    [self.running] and nothing sets it again.  The replacement thread is
    started, but the first thing it does is to test [self.running] and
    return; from then on, in every interleaving, no cleanup cycle is
    ever begun, and the supervisor itself leaves its loop at its next
    test. *)
Theorem stalled_worker_replacement_never_runs (s : Sys) :
  supervisor s = SupHead ->
  running (self (st s)) = true ->
  worker_alive s = true ->
  heartbeat_timed_out (st s) = true ->
  ∃ s1 s2 : Sys,
    supervisor_step s = Some s1 ∧ supervisor_step s1 = Some s2 ∧
    running (self (st s1)) = false ∧
    cleanup_thread s2 = Some (length (workers s1)) ∧
    workers s2 !! length (workers s1) = Some LoopHead ∧
    worker_step (length (workers s1)) s2
    = Some (false, set_worker (length (workers s1)) Exited s2) ∧
    supervisor_step (set_supervisor SupHead s2)
    = Some (set_supervisor SupExited s2) ∧
    ∀ tr s3, steps s1 tr s3 →
      running (self (st s3)) = false ∧
      Forall (fun l => ∀ i, l ≠ LCycle i) tr.
Proof.
  intros Hsup Hr Halive Hto. unfold supervisor_step at 1.
  rewrite Hsup, Hr, Halive, Hto. simpl.
  eexists _, _. split; [done|]. split; [done|].
  assert (Hnew : ∀ (l : list WorkerPc), (l ++ [LoopHead]) !! length l
                                         = Some LoopHead).
  { intros l. by rewrite lookup_app_r, Nat.sub_diag by lia. }
  split_and!.
  - done.
  - unfold worker_alive. simpl. destruct (cleanup_thread s) as [i|]; [|done].
    by destruct (workers s !! i) as [[]|].
  - unfold worker_alive. simpl. destruct (cleanup_thread s) as [i|].
    + destruct (workers s !! i) as [[]|]; simpl; apply Hnew.
    + simpl. apply Hnew.
  - unfold worker_step, worker_alive. simpl.
    destruct (cleanup_thread s) as [i|];
      [destruct (workers s !! i) as [[]|]|]; simpl; by rewrite Hnew.
  - unfold supervisor_step, worker_alive. simpl.
    destruct (cleanup_thread s) as [i|];
      [destruct (workers s !! i) as [[]|]|]; done.
  - intros tr s3 Hsteps. by apply (steps_stopped _ _ _ Hsteps).
Qed.

Lemma stalled_worker_witness :
  ∃ s1 s2 : Sys,
    supervisor_step stalled_system = Some s1 ∧
    supervisor_step s1 = Some s2 ∧
    running (self (st s1)) = false ∧
    worker_step 1 s2 = Some (false, set_worker 1 Exited s2).
Proof.
  destruct (stalled_worker_replacement_never_runs stalled_system)
    as (s1 & s2 & H1 & H2 & H3 & _ & _ & H4 & _).
  - reflexivity.
  - reflexivity.
  - reflexivity.
  - reflexivity.
  - exists s1, s2. split_and!; try done.
    assert (Hlen : length (workers s1) = 1%nat).
    { vm_compute in H1. by injection H1 as <-. }
    by rewrite Hlen in H4.
Defined.

(** The two defects together: while the CPU stays busy every cycle is
    skipped and none refreshes the heartbeat, so after the timeout the
    supervisor takes the healthy worker for a stalled one, and its stop
    request ends the daemon. *)
Example busy_cpu_ends_the_daemon :
  ∃ s3,
    steps busy_daemon
      [LCycle 0; LWorker 0; LEnv; LSupervisor; LSupervisor; LWorker 1;
       LWorker 0; LWorker 0; LSupervisor; LSupervisor] s3 ∧
    running (self (st s3)) = false ∧
    workers s3 = [Exited; Exited] ∧
    supervisor s3 = SupExited ∧
    fs_files (os (st s3)) = fs_files (os busy_state).
Proof.
  eexists. split.
  - eapply steps_cons; [apply Step_cycle; by vm_compute|].
    eapply steps_cons; [apply Step_worker; by vm_compute|].
    eapply steps_cons;
      [apply (Step_world _ (sample_world
                              (on_disk <$> [rec_10d; rec_2d; rec_1h]) ∅
                              (day100 + 601) (95 # 1)))|].
    eapply steps_cons; [apply Step_supervisor; by vm_compute|].
    eapply steps_cons; [apply Step_supervisor; by vm_compute|].
    eapply steps_cons; [apply Step_worker; by vm_compute|].
    eapply steps_cons; [apply Step_worker; by vm_compute|].
    eapply steps_cons; [apply Step_worker; by vm_compute|].
    eapply steps_cons; [apply Step_supervisor; by vm_compute|].
    eapply steps_cons; [apply Step_supervisor; by vm_compute|].
    apply steps_nil.
  - by vm_compute.
Qed.

(** ** One cleanup thread at a time *)

Lemma worker_step_preserves i s c s' :
  worker_step i s = Some (c, s') -> single_runner s -> single_runner s'.
Proof.
  unfold worker_step, single_runner. intros Hstep [HA HB].
  destruct (workers s !! i) as [pc0|] eqn:Hi; [|done].
  assert (Hpc0 : pc0 ≠ Exited) by (by intros ->).
  assert (Hshape : ∃ pc', supervisor s' = supervisor s ∧
                          cleanup_thread s' = cleanup_thread s ∧
                          workers s' = <[i := pc']> (workers s) ∧
                          running (self (st s')) = running (self (st s)) ∧
                          (pc' = InCycle → running (self (st s)) = true)).
  { destruct pc0 as [| |[|k]|]; [| | | |done];
      try destruct (running (self (st s))) eqn:Hr; simplify_eq;
      eexists; simpl; split_and!; try done;
      by rewrite perform_cleanup_running. }
  destruct Hshape as (pc' & Hsup & Hh & Hw & Hr & Hin).
  rewrite Hsup, Hh, Hw, Hr.
  assert (Hcur : running (self (st s)) = true → cleanup_thread s = Some i).
  { intros Hrun. destruct (HA Hrun) as [_ H2].
    destruct (decide (cleanup_thread s = Some i)) as [|Hne]; [done|].
    by destruct (Hpc0 (H2 i pc0 Hi Hne)). }
  split.
  - intros Hrun. destruct (HA Hrun) as [H1 H2].
    split; [done|]. intros j pc Hj Hne.
    apply list_lookup_insert_Some in Hj as [(<- & _ & _)|[_ Hj]].
    + by destruct (Hne (Hcur Hrun)).
    + by apply (H2 j pc).
  - assert (Hone : ∀ j, j ≠ i → workers s !! j = Some InCycle →
                        pc' = InCycle → False).
    { intros j Hji Hj Hpc. pose proof (Hin Hpc) as Hrun.
      destruct (HA Hrun) as [_ H2].
      assert (Hne : cleanup_thread s ≠ Some j).
      { rewrite (Hcur Hrun). by intros [= ->]. }
      by pose proof (H2 j InCycle Hj Hne). }
    intros a b Ha Hb.
    apply list_lookup_insert_Some in Ha as [(<- & Ha & _)|[Hai Ha]];
      apply list_lookup_insert_Some in Hb as [(Hbi & Hb & _)|[Hbi Hb]].
    + done.
    + by destruct (Hone b (λ H, Hbi (eq_sym H)) Hb).
    + subst b. by destruct (Hone a (λ H, Hai (eq_sym H)) Ha).
    + by apply HB.
Qed.

Lemma started_thread_not_in_cycle (l : list WorkerPc) i :
  (l ++ [LoopHead]) !! i = Some InCycle -> l !! i = Some InCycle.
Proof. by intros [[_ H]|[_ ?]]%lookup_snoc_Some. Qed.

Lemma supervisor_step_preserves s s' :
  supervisor_step s = Some s' -> single_runner s -> single_runner s'.
Proof.
  unfold supervisor_step, single_runner. intros Hstep [HA HB].
  assert (HB' : ∀ i j, (workers s ++ [LoopHead]) !! i = Some InCycle →
                       (workers s ++ [LoopHead]) !! j = Some InCycle → i = j).
  { intros i j Hi%started_thread_not_in_cycle Hj%started_thread_not_in_cycle.
    by apply HB. }
  destruct (supervisor s) eqn:Hsup.
  - destruct (running (self (st s))) eqn:Hr.
    + destruct (HA eq_refl) as [_ H2].
      destruct (worker_alive s) eqn:Halive; simpl in Hstep.
      * destruct (heartbeat_timed_out (st s)); simplify_eq; simpl;
          (split; [|done]); [done|].
        rewrite Hr. intros _. split; [done|]. exact H2.
      * simplify_eq. simpl. split; [|done]. rewrite Hr. intros _.
        split; [done|]. intros j pc Hj Hne.
        apply lookup_snoc_Some in Hj as [[_ Hj]|[-> _]]; [|done].
        destruct (decide (cleanup_thread s = Some j)) as [Hh|Hh];
          [|by apply (H2 j)].
        unfold worker_alive in Halive. rewrite Hh, Hj in Halive.
        by destruct pc.
    + simplify_eq. simpl. split; [|done]. by rewrite Hr.
  - simplify_eq. split.
    + intros Hrun. exfalso.
      assert (Hr : running (self (st s)) = true).
      { destruct (worker_alive s); exact Hrun. }
      by destruct (HA Hr).
    + by destruct (worker_alive s).
  - simplify_eq. simpl. split; [|done].
    intros Hr. destruct (HA Hr) as [_ H2]. by split.
  - done.
Qed.

Lemma step_preserves s l s' :
  step s l s' -> single_runner s -> single_runner s'.
Proof.
  intros Hstep Hinv. destruct Hstep as [s i s' H|s i s' H|s s' H|s w|s i].
  - by eapply worker_step_preserves.
  - by eapply worker_step_preserves.
  - by eapply supervisor_step_preserves.
  - exact Hinv.
  - unfold single_runner in *. simpl. destruct Hinv as [HA HB]. split.
    + intros Hr. destruct (HA Hr) as [H1 H2]. split; [done|].
      intros j pc Hj Hne.
      apply list_lookup_insert_Some in Hj as [(<- & <- & _)|[_ Hj]]; [done|].
      by apply (H2 j).
    + intros a b Ha Hb.
      apply list_lookup_insert_Some in Ha as [(_ & ? & _)|[_ Ha]]; [done|].
      apply list_lookup_insert_Some in Hb as [(_ & ? & _)|[_ Hb]]; [done|].
      by apply HB.
Qed.

Lemma steps_preserve s tr s' :
  steps s tr s' -> single_runner s -> single_runner s'.
Proof.
  induction 1 as [s|s l s' tr s'' Hstep _ IH]; [done|].
  intros Hinv. apply IH. by eapply step_preserves.
Qed.

Lemma start_single_runner x : single_runner (start x).
Proof.
  unfold single_runner, start. simpl. split.
  - intros _. split; [done|].
    intros [|i] pc Hi Hne; [done|]. by destruct i.
  - intros [|[|i]] j Hi; done.
Qed.

(** X16: in a run that begins with [start], in every interleaving of
    the threads, no two cleanup threads are inside a cleanup cycle at
    the same time; and as long as [self.running] is set every cleanup
    thread other than the one the daemon holds as [self.cleanup_thread]
    has returned: the supervisor starts a new thread only over a dead
    one, or after clearing the flag, and a thread started after that
    returns at its first test. *)
Theorem cleanup_cycles_never_overlap (x : St) (tr : list Label) (s : Sys) :
  steps (start x) tr s ->
  (∀ i j, workers s !! i = Some InCycle → workers s !! j = Some InCycle →
          i = j) ∧
  (running (self (st s)) = true →
   ∀ i pc, workers s !! i = Some pc → cleanup_thread s ≠ Some i →
           pc = Exited).
Proof.
  intros Hsteps.
  destruct (steps_preserve _ _ _ Hsteps (start_single_runner x)) as [HA HB].
  split; [exact HB|]. intros Hr. by destruct (HA Hr).
Qed.

Lemma cleanup_cycles_witness :
  ∃ s, steps (start (three_files ∅)) [LEnv; LSupervisor; LCycle 1] s ∧
       cleanup_thread s = Some 1%nat ∧
       workers s !! 1%nat = Some InCycle ∧
       workers s !! 0%nat = Some Exited.
Proof.
  set (s1 := set_worker 0 Exited (start (three_files ∅))).
  set (s2 := set_supervisor SupSleeping
               (start_cleanup_thread
                  (set_st (snd (log WARNING MsgWorkerNotRunning (st s1)))
                          s1))).
  exists (set_worker 1 InCycle s2).
  assert (Hsteps : steps (start (three_files ∅)) [LEnv; LSupervisor; LCycle 1]
                     (set_worker 1 InCycle s2)).
  { eapply steps_cons; [apply (Step_kill _ 0)|].
    eapply steps_cons; [apply Step_supervisor; reflexivity|].
    eapply steps_cons; [apply Step_cycle; reflexivity|].
    apply steps_nil. }
  split_and!; [exact Hsteps|reflexivity|reflexivity|].
  apply (f_equal Some).
  apply (proj2 (cleanup_cycles_never_overlap _ _ _ Hsteps) eq_refl
           0%nat Exited).
  - reflexivity.
  - discriminate.
Defined.

(** X17: a stop request is honoured promptly.  Once [self.running] is
    cleared, a cleanup thread that has not returned yet returns within
    three steps of its own, none of which begins a cleanup cycle,
    however many seconds of its wait are left.  A thread that stands at
    the test of its loop or in its wait returns within two, and leaves
    the daemon as it is; a thread inside a cycle ends that cycle
    first. *)
Theorem stop_request_ends_worker (s : Sys) (i : nat) (pc : WorkerPc) :
  running (self (st s)) = false ->
  workers s !! i = Some pc -> pc ≠ Exited ->
  ∃ n s', (n <= 3)%nat ∧
          quiet_steps n i s = Some s' ∧
          workers s' !! i = Some Exited ∧
          (pc ≠ InCycle → (n <= 2)%nat ∧ st s' = st s).
Proof.
  intros Hr Hi Hpc.
  assert (Hlen : (i < length (workers s))%nat) by (by eapply lookup_lt_Some).
  assert (Hhead : ∀ t : Sys,
            running (self (st t)) = false → (i < length (workers t))%nat →
            quiet_steps 1 i (set_worker i LoopHead t)
            = Some (set_worker i Exited (set_worker i LoopHead t))).
  { intros t Ht Hl. unfold quiet_steps, worker_step. simpl.
    by rewrite list_lookup_insert_eq, Ht by done. }
  assert (Hwait : ∀ (t : Sys) k,
            running (self (st t)) = false → workers t !! i = Some (Sleeping k) →
            quiet_steps 2 i t
            = Some (set_worker i Exited (set_worker i LoopHead t))).
  { intros t k Ht Hk.
    assert (Hl : (i < length (workers t))%nat) by (by eapply lookup_lt_Some).
    change (quiet_steps 2 i t)
      with (match worker_step i t with
            | Some (false, s1) => quiet_steps 1 i s1
            | _ => None
            end).
    unfold worker_step at 1. rewrite Hk, Ht.
    destruct k; by rewrite Hhead. }
  assert (Hexit : ∀ t : Sys, (i < length (workers t))%nat →
            workers (set_worker i Exited (set_worker i LoopHead t)) !! i
            = Some Exited).
  { intros t Hl. simpl. apply list_lookup_insert_eq.
    by rewrite length_insert. }
  destruct pc as [| |k|]; [| | |done].
  - exists 1%nat, (set_worker i Exited s).
    split_and!; [lia| | |by (intros _; split; [lia|])].
    + unfold quiet_steps, worker_step. by rewrite Hi, Hr.
    + simpl. by apply list_lookup_insert_eq.
  - set (x := snd (perform_cleanup (st s))).
    set (t := set_worker i (Sleeping (Z.to_nat (scan_interval (config (self x)))))
                (set_st x s)).
    assert (Ht : running (self (st t)) = false).
    { subst t x. simpl. by rewrite perform_cleanup_running. }
    assert (Hk : workers t !! i
                 = Some (Sleeping (Z.to_nat (scan_interval (config (self x)))))).
    { subst t. simpl. by apply list_lookup_insert_eq. }
    exists 3%nat, (set_worker i Exited (set_worker i LoopHead t)).
    split_and!; [lia| | |by intros H; destruct H].
    + change (quiet_steps 3 i s)
        with (match worker_step i s with
              | Some (false, s1) => quiet_steps 2 i s1
              | _ => None
              end).
      unfold worker_step at 1. rewrite Hi. fold x. fold t.
      by apply (Hwait t _ Ht Hk).
    + apply Hexit. subst t. simpl. by rewrite length_insert.
  - exists 2%nat, (set_worker i Exited (set_worker i LoopHead s)).
    split_and!; [lia|by apply (Hwait s k)|by apply Hexit|].
    intros _. split; [lia|done].
Qed.

Lemma stop_request_witness :
  ∃ n s', (n <= 3)%nat ∧
    quiet_steps n 0
      (mkSys (snd (set_running false (three_files ∅)))
             [Sleeping 299] (Some 0%nat) SupSleeping)
    = Some s' ∧
    workers s' !! 0%nat = Some Exited.
Proof.
  destruct (stop_request_ends_worker
              (mkSys (snd (set_running false (three_files ∅)))
                     [Sleeping 299] (Some 0%nat) SupSleeping)
              0 (Sleeping 299)) as (n & s' & Hn & Hq & He & _).
  - reflexivity.
  - reflexivity.
  - discriminate.
  - by exists n, s'.
Defined.

(** X18: a supervisor tick that finds the daemon running and no live
    cleanup thread (none started yet, or the last one has died) starts
    a new thread and makes it the current one; that thread is alive and
    its next step is a cleanup cycle. *)
Theorem supervisor_replaces_dead_worker (s : Sys) :
  supervisor s = SupHead -> running (self (st s)) = true ->
  worker_alive s = false ->
  ∃ s1, supervisor_step s = Some s1 ∧
        cleanup_thread s1 = Some (length (workers s)) ∧
        worker_alive s1 = true ∧
        running (self (st s1)) = true ∧
        ∃ s2, step s1 (LCycle (length (workers s))) s2.
Proof.
  intros Hsup Hr Hdead. unfold supervisor_step. rewrite Hsup, Hr, Hdead.
  simpl. eexists. split; [done|].
  assert (Hnew : (workers s ++ [LoopHead]) !! length (workers s)
                 = Some LoopHead).
  { by rewrite lookup_app_r, Nat.sub_diag by lia. }
  split_and!; [done| |done|].
  - unfold worker_alive. simpl. by rewrite Hnew.
  - eexists. apply Step_cycle. unfold worker_step. simpl.
    by rewrite Hnew, Hr.
Qed.

Lemma supervisor_replaces_dead_worker_witness :
  ∃ s1, supervisor_step (mkSys (three_files ∅) [Exited] (Some 0%nat) SupHead)
        = Some s1 ∧ cleanup_thread s1 = Some 1%nat.
Proof.
  destruct (supervisor_replaces_dead_worker
              (mkSys (three_files ∅) [Exited] (Some 0%nat) SupHead))
    as (s1 & H1 & H2 & _).
  - reflexivity.
  - reflexivity.
  - reflexivity.
  - by exists s1.
Defined.
